(** * proto-gen-html: symbol resolution and source-location lookup

    A shallow embedding of the template helpers of package [tmpl]
    (walkPath, protoFields, location, findCachedItem, urlToType, typeURL,
    genTarget's target guard) and of the symbol resolver of package [util],
    followed by the properties the specification states about them. *)

From Stdlib Require Import List ZArith Bool Ascii String Lia.
Import ListNotations.
Set Warnings "-register-all".
Open Scope string_scope.
Open Scope list_scope.
Open Scope Z_scope.

(* ================================================================== *)
(** ** Results of Go calls: a normal return or a panic *)

(** What a Go panic carries.  Only the panics the modelled code can raise
    are listed. *)
Inductive panic_value : Type :=
| PanicMsg (msg : string)            (* panic("...") with a literal message *)
| ExpectedDescriptorType (pkgPath : string)
                                     (* panic("expected descriptor type; got " + %q) *)
| NilDereference                     (* runtime error: nil pointer dereference *)
| ZeroValueType                      (* reflect: call of reflect.Value.Type on zero Value *)
| UncomparableType                   (* runtime error: comparing uncomparable type *)
| IllTyped.                          (* a value outside the declared Go type; never built by Go code *)

Inductive outcome (A : Type) : Type :=
| Ret (a : A)
| Panic (p : panic_value).
Arguments Ret {A} a.
Arguments Panic {A} p.

Definition bind {A B} (m : outcome A) (k : A -> outcome B) : outcome B :=
  match m with
  | Ret a => k a
  | Panic p => Panic p
  end.

Notation "x <- m ;; k" := (bind m (fun x => k))
  (at level 61, m at next level, right associativity).

Definition returns {A} (m : outcome A) : bool :=
  match m with Ret _ => true | Panic _ => false end.

(* ================================================================== *)
(** ** Go strings: the library calls the code makes *)

Module GoStrings.

(** strings.Split(s, sep) for a one-byte separator: always at least one
    piece; the empty string gives one empty piece. *)
Fixpoint Split (sep : ascii) (s : string) : list string :=
  match s with
  | EmptyString => [EmptyString]
  | String c rest =>
      if Ascii.eqb c sep then EmptyString :: Split sep rest
      else match Split sep rest with
           | piece :: pieces => String c piece :: pieces
           | [] => [String c EmptyString]
           end
  end.

Definition digit (c : ascii) : option Z :=
  let n := Z.of_nat (nat_of_ascii c) in
  if (48 <=? n) && (n <=? 57) then Some (n - 48) else None.

(** The digits of [s] read in base ten onto the accumulator [acc]; [None]
    at the first byte that is not a digit. *)
Fixpoint digits (acc : Z) (s : string) : option Z :=
  match s with
  | EmptyString => Some acc
  | String c rest =>
      match digit c with
      | Some d => digits (acc * 10 + d) rest
      | None => None
      end
  end.

Definition maxInt : Z := 9223372036854775807.
Definition minInt : Z := -9223372036854775808.

(** strconv.Atoi on a 64-bit platform: an optional sign, then one digit
    or more, the value within the range of int; [None] stands for the
    returned error. *)
Definition Atoi (s : string) : option Z :=
  let '(neg, body) :=
    match s with
    | String "-" rest => (true, rest)
    | String "+" rest => (false, rest)
    | _ => (false, s)
    end in
  match body with
  | EmptyString => None
  | _ =>
      match digits 0 body with
      | Some n =>
          let n := if neg then - n else n in
          if (minInt <=? n) && (n <=? maxInt) then Some n else None
      | None => None
      end
  end.

Fixpoint HasPrefix (s prefix : string) : bool :=
  match prefix, s with
  | EmptyString, _ => true
  | String p prefix', String c s' => Ascii.eqb c p && HasPrefix s' prefix'
  | String _ _, EmptyString => false
  end.

Fixpoint rev_onto (s acc : string) : string :=
  match s with
  | EmptyString => acc
  | String c rest => rev_onto rest (String c acc)
  end.

Definition HasSuffix (s suffix : string) : bool :=
  HasPrefix (rev_onto s EmptyString) (rev_onto suffix EmptyString).

End GoStrings.

(* ================================================================== *)
(** ** Go values as package reflect sees them *)

Definition addr := positive.

(** reflect.Type, as far as the code looks at it: its identity and its
    PkgPath. *)
Inductive gotype : Type :=
| TBasic (name : string)             (* string, int32, bool, uint8, ... *)
| TNamed (pkgPath name : string)     (* a declared type *)
| TPtr (elem : gotype)
| TSlice (elem : gotype).

Fixpoint gotype_eqb (t u : gotype) : bool :=
  match t, u with
  | TBasic n, TBasic m => String.eqb n m
  | TNamed p n, TNamed q m => String.eqb p q && String.eqb n m
  | TPtr a, TPtr b => gotype_eqb a b
  | TSlice a, TSlice b => gotype_eqb a b
  | _, _ => false
  end.

Definition PkgPath (t : gotype) : string :=
  match t with
  | TNamed p _ => p
  | _ => EmptyString
  end.

Inductive scalar : Type :=
| SStr (s : string)
| SInt (z : Z)
| SBool (b : bool).

Definition scalar_eqb (a b : scalar) : bool :=
  match a, b with
  | SStr s, SStr t => String.eqb s t
  | SInt x, SInt y => Z.eqb x y
  | SBool x, SBool y => Bool.eqb x y
  | _, _ => false
  end.

(** A struct field: its Go name, the value of its struct tag under the key
    protobuf (empty when the tag has no such key) and its content. *)
Definition sfield (V : Type) : Type := (string * string * V)%type.
Definition fname {V} (f : sfield V) : string := fst (fst f).
Definition ftag {V} (f : sfield V) : string := snd (fst f).
Definition fval {V} (f : sfield V) : V := snd f.

(** An interface{} value.  A pointer is nil or the address of a cell
    together with the cell's content; two pointers are the same pointer
    when they have the same address, whatever the content. *)
Inductive value : Type :=
| VNil                                              (* the nil interface *)
| VScalar (t : gotype) (s : scalar)                 (* of type t *)
| VSlice (elem : gotype) (elems : list value)       (* of type []elem *)
| VPtr (elem : gotype) (p : option (addr * value))  (* of type *elem *)
| VStruct (pkgPath name : string) (fields : list (sfield value)).
                                                    (* of the declared type pkgPath.name *)

(** The dynamic type; the nil interface has none. *)
Definition TypeOf (v : value) : option gotype :=
  match v with
  | VNil => None
  | VScalar t _ => Some t
  | VSlice e _ => Some (TSlice e)
  | VPtr e _ => Some (TPtr e)
  | VStruct p n _ => Some (TNamed p n)
  end.

(** reflect.Indirect(reflect.ValueOf(v)): the cell a pointer points to,
    the zero Value (written [VNil]) for a nil pointer, [v] itself when [v]
    is no pointer. *)
Definition Indirect (v : value) : value :=
  match v with
  | VPtr _ (Some (_, cell)) => cell
  | VPtr _ None => VNil
  | _ => v
  end.

(** reflect.Indirect(reflect.ValueOf(v)).Type(): panics on the zero
    Value. *)
Definition IndirectType (v : value) : outcome gotype :=
  match v with
  | VNil => Panic ZeroValueType
  | VPtr _ None => Panic ZeroValueType
  | VPtr e (Some _) => Ret e
  | VScalar t _ => Ret t
  | VSlice e _ => Ret (TSlice e)
  | VStruct p n _ => Ret (TNamed p n)
  end.

(** Field and element access of statically typed Go code: [v.name] on a
    pointer to a struct panics on nil; [IllTyped] marks values the Go type
    checker excludes. *)
Definition deref (v : value) : outcome value :=
  match v with
  | VPtr _ (Some (_, cell)) => Ret cell
  | VPtr _ None => Panic NilDereference
  | _ => Panic IllTyped
  end.

Fixpoint lookup_field (name : string) (fields : list (sfield value)) : option value :=
  match fields with
  | [] => None
  | f :: rest => if String.eqb (fname f) name then Some (fval f) else lookup_field name rest
  end.

Definition selector (v : value) (name : string) : outcome value :=
  cell <- deref v ;;
  match cell with
  | VStruct _ _ fields =>
      match lookup_field name fields with
      | Some x => Ret x
      | None => Panic IllTyped
      end
  | _ => Panic IllTyped
  end.

Definition elements (v : value) : outcome (list value) :=
  match v with
  | VSlice _ elems => Ret elems
  | _ => Panic IllTyped
  end.

Fixpoint int32s (elems : list value) : outcome (list Z) :=
  match elems with
  | [] => Ret []
  | VScalar _ (SInt z) :: rest => zs <- int32s rest ;; Ret (z :: zs)
  | _ :: _ => Panic IllTyped
  end.

Definition isNilPtr (v : value) : bool :=
  match v with
  | VPtr _ None => true
  | _ => false
  end.

(** *** Comparison of interface values, [a == b]

    Different dynamic types compare unequal; the same dynamic type panics
    when it is not comparable (a slice, or a struct with such a field);
    pointers compare by address, scalars by content. *)
Fixpoint comparable (v : value) : bool :=
  match v with
  | VSlice _ _ => false
  | VStruct _ _ fields => forallb (fun f => comparable (snd f)) fields
  | _ => true
  end.

Definition same_address (p q : option (addr * value)) : bool :=
  match p, q with
  | None, None => true
  | Some (a, _), Some (b, _) => Pos.eqb a b
  | _, _ => false
  end.

Fixpoint go_eqb (v w : value) : bool :=
  match v, w with
  | VNil, VNil => true
  | VScalar _ a, VScalar _ b => scalar_eqb a b
  | VPtr _ p, VPtr _ q => same_address p q
  | VStruct _ _ fs, VStruct _ _ gs =>
      (fix all2 (l : list (sfield value)) (m : list (sfield value)) : bool :=
         match l, m with
         | [], [] => true
         | f :: l', g :: m' => go_eqb (snd f) (snd g) && all2 l' m'
         | _, _ => false
         end) fs gs
  | _, _ => false
  end.

Definition same_dynamic_type (v w : value) : bool :=
  match TypeOf v, TypeOf w with
  | None, None => true
  | Some t, Some u => gotype_eqb t u
  | _, _ => false
  end.

Definition iface_eq (v w : value) : outcome bool :=
  if same_dynamic_type v w then
    if comparable v then Ret (go_eqb v w) else Panic UncomparableType
  else Ret false.

(* ================================================================== *)
(** ** tmpl: protoFields and walkPath (funcs.go) *)

Section ProtoFields.
(** [S] is the state the callback [fn] reads and writes: the variables
    its closure captured. *)
Context {S : Type}.
Variable fn : Z -> value -> S -> bool * S.

(** case reflect.Slice: for i := 0; i < indirect.Len(); i++ *)
Fixpoint each_index (i : Z) (elems : list value) (s : S) : S :=
  match elems with
  | [] => s
  | e :: rest =>
      let '(continue, s') := fn i e s in
      if continue then each_index (i + 1) rest s' else s'
  end.

(** case reflect.Struct: for i := 0; i < indirect.NumField(); i++ *)
Fixpoint each_field (fields : list (sfield value)) (s : S) : S :=
  match fields with
  | [] => s
  | f :: rest =>
      let pieces := GoStrings.Split "," (ftag f) in
      if (Z.of_nat (List.length pieces) <? 2) then each_field rest s (* too few fields *)
      else
        match GoStrings.Atoi (nth 1 pieces EmptyString) with
        | None => each_field rest s
        | Some tagID =>
            let '(continue, s') := fn tagID (fval f) s in
            if continue then each_field rest s' else s'
        end
  end.

Definition protoFields (node : value) (s : S) : S :=
  match Indirect node with
  | VSlice _ elems => each_index 0 elems s
  | VStruct _ _ fields => each_field fields s
  | _ => s
  end.
End ProtoFields.

(** The variables the closure [walker] of walkPath captures. *)
Record walk_state : Type := {
  target : Z;
  path : list Z;
  found : value
}.

(** The closure as written, reading and assigning its captured variables.
    Each nested call of protoFields has consumed a step of the path, so
    the nesting is at most as deep as the path is long; [depth] bounds
    it. *)
Fixpoint walker_closure (depth : nat) (id : Z) (v : value) (st : walk_state)
  : bool * walk_state :=
  if negb (id =? target st) then (true, st)
  else
    match path st with
    | [] => (false, {| target := target st; path := path st; found := v |})
    | target' :: path' =>
        match depth with
        | O => (false, st)
        | S depth' =>
            (false, protoFields (walker_closure depth') v
                      {| target := target'; path := path'; found := found st |})
        end
    end.

Definition walkPath_closure (path : list Z) (protoFileDescriptor : value) : value :=
  match path with
  | [] => protoFileDescriptor
  | target :: path' =>
      found (protoFields (walker_closure (List.length path')) protoFileDescriptor
               {| target := target; path := path'; found := VNil |})
  end.

(** The same walk without the bound.  [target] and [path] are reassigned
    only on the branch that then calls protoFields on the child and
    returns false, which ends every enclosing loop; no loop reads them
    after the reassignment, so they are passed by value and [found] alone
    is threaded through the loops.  [walkPath_closure_eq] below shows the
    two agree. *)
Fixpoint walker (path : list Z) (target : Z) (id : Z) (v : value) (found : value)
  : bool * value :=
  if negb (id =? target) then (true, found)
  else
    match path with
    | [] => (false, v)
    | target' :: path' => (false, protoFields (walker path' target') v found)
    end.

Definition walkPath (path : list Z) (protoFileDescriptor : value) : value :=
  match path with
  | [] => protoFileDescriptor
  | target :: path' => protoFields (walker path' target) protoFileDescriptor VNil
  end.

(* ================================================================== *)
(** ** util: the symbol resolver

    Package util (resolver.go) is not among the sources at hand; only its
    test TestResolverFQ and its callers in package tmpl are.  The
    definitions of this module follow sections 3 and 4.1 of the
    specification. *)

Module Util.

(** Modelled from the spec: the kind of a Definition (section 3). *)
Inductive Kind : Type := message | enum.

(** Modelled from the spec: the Field of the data model (section 3). *)
Record Field : Type := {
  tagNumber : Z;
  fieldName : string;
  typeName : string
}.

(** Modelled from the spec: the Definition of the data model (section 3),
    a message or an enum.  The non-owning back-reference ownerFile is
    left out: resolution never reads it. *)
Inductive Defn : Type := mkDefn {
  localName : string;
  kind : Kind;
  nestedTypes : list Defn;
  fields : list Field
}.

(** Modelled from the spec: the File of the data model (section 3). *)
Record File : Type := {
  name : string;
  package : string;
  dependencies : list string;
  topLevelTypes : list Defn
}.

(** Modelled from the spec: util.IsFullyQualified; a symbol path is fully
    qualified when it begins with the namespace separator. *)
Definition IsFullyQualified (symbolPath : string) : bool :=
  match symbolPath with
  | String "." _ => true
  | _ => false
  end.

(** Modelled from the spec: the segments of a dotted name; the empty name
    (a file without package) has none. *)
Definition segments (dotted : string) : list string :=
  match dotted with
  | EmptyString => []
  | _ => GoStrings.Split "." dotted
  end.

(** Modelled from the spec: step 1 of Resolve, the leading separator
    removed and the rest split into segments. *)
Definition normalize (symbolPath : string) : list string :=
  match symbolPath with
  | String "." rest => segments rest
  | _ => segments symbolPath
  end.

(** Modelled from the spec: step 2 of Resolve, the segment-wise prefix
    test (whole segments, not substrings). *)
Fixpoint isPrefix (pkg sym : list string) : bool :=
  match pkg, sym with
  | [], _ => true
  | p :: pkg', s :: sym' => String.eqb p s && isPrefix pkg' sym'
  | _ :: _, [] => false
  end.

(** Modelled from the spec: step 3 of Resolve, the Definition among the
    candidates whose localName is the segment; the first, in their
    order. *)
Definition findByName (seg : string) (candidates : list Defn) : option Defn :=
  find (fun d => String.eqb (localName d) seg) candidates.

(** Modelled from the spec: step 3 of Resolve, the chain of nested-type
    lookups; with no segment left there is no Definition to name. *)
Fixpoint resolveChain (segs : list string) (candidates : list Defn) : option Defn :=
  match segs with
  | [] => None
  | seg :: rest =>
      match findByName seg candidates with
      | None => None
      | Some d =>
          match rest with
          | [] => Some d
          | _ :: _ => resolveChain rest (nestedTypes d)
          end
      end
  end.

(** Modelled from the spec: step 3 of Resolve for one file, the segments
    left after the package resolved from the file's topLevelTypes. *)
Definition resolveIn (segs : list string) (f : File) : option Defn :=
  resolveChain (skipn (List.length (segments (package f))) segs) (topLevelTypes f).

(** Modelled from the spec: step 2 of Resolve for one file.  A file with
    a package matches the symbols its package is a prefix of; a file
    without package matches only the symbols that belong to it, those
    whose segments resolve, none left over, from its top level. *)
Definition packageMatches (segs : list string) (f : File) : bool :=
  match package f with
  | EmptyString =>
      match resolveIn segs f with
      | Some _ => true
      | None => false
      end
  | _ => isPrefix (segments (package f)) segs
  end.

(** Modelled from the spec: the two readings of step 4 of Resolve.  Its
    first sentence (and section 8, first property) has the first file in
    which step 3 succeeds returned, so a file of matching package that
    lacks the symbol is passed over; its second sentence (and section 8,
    last property) makes a failed lookup in a file of matching package
    terminal.  Which of the two resolver.go does is not in the sources at
    hand; the reading is a parameter of the model. *)
Inductive Step4 : Type :=
| TriesLaterFiles
| StopsAtFirstMatch.

(** Modelled from the spec: steps 2, 4 and 5 of Resolve.  The files are
    tried in the given order; a file whose package matches and in which
    the remaining segments resolve is returned with the Definition; after
    a failed lookup in a file of matching package the later files are
    tried or not, by the reading of step 4.  A miss is the pair
    (none, none). *)
Fixpoint resolveSegments (step4 : Step4) (segs : list string) (files : list File)
  : option Defn * option File :=
  match files with
  | [] => (None, None)
  | f :: rest =>
      if packageMatches segs f then
        match resolveIn segs f with
        | Some d => (Some d, Some f)
        | None =>
            match step4 with
            | TriesLaterFiles => resolveSegments step4 segs rest
            | StopsAtFirstMatch => (None, None)
            end
        end
      else resolveSegments step4 segs rest
  end.

(** Modelled from the spec: Resolve(symbolPath, files) of section 4.1,
    under a reading of its step 4. *)
Definition Resolve (step4 : Step4) (symbolPath : string) (files : list File)
  : option Defn * option File :=
  resolveSegments step4 (normalize symbolPath) files.

End Util.

(* ================================================================== *)
(** ** tmpl: the template functions (funcs.go) *)

Record cacheItem : Type := {
  V : value;
  L : value
}.

(** tmplFuncs.  The later revisions of funcs.go call the fields rootDir
    and protoFile urlRoot and protoFiles.  A nil slice and an empty one
    are both [[]]: locCache is only ever assigned by append. *)
Record tmplFuncs : Type := {
  protoFileDescriptor : value;
  outputFile : string;
  rootDir : string;
  protoFile : list Util.File;
  locCache : list cacheItem
}.

Definition set_locCache (f : tmplFuncs) (c : list cacheItem) : tmplFuncs :=
  {| protoFileDescriptor := protoFileDescriptor f;
     outputFile := outputFile f;
     rootDir := rootDir f;
     protoFile := protoFile f;
     locCache := c |}.

Fixpoint containsByte (c : ascii) (s : string) : bool :=
  match s with
  | EmptyString => false
  | String d rest => Ascii.eqb d c || containsByte c rest
  end.

(** path.Ext and, on a slash-separated system, filepath.Ext: the suffix
    from the last dot of the last path element, empty without one. *)
Fixpoint Ext (path : string) : string :=
  match path with
  | EmptyString => EmptyString
  | String c rest =>
      match Ext rest with
      | EmptyString =>
          if Ascii.eqb c "." && negb (containsByte "/" rest) then path else EmptyString
      | later => later
      end
  end.

Definition stripExt (s : string) : string :=
  let ext := Ext s in
  if (0 <? Z.of_nat (String.length ext))%Z
  then substring 0 (String.length s - String.length ext) s
  else s.

Section TypeURLs.
(** What package util and package path provide to the code below. *)
Variable Resolve : string -> list Util.File -> option Util.Defn * option Util.File.
Variable ResolveFile : string -> list Util.File -> option Util.File.
Variable TrimElem : string -> Z -> string.
Variable CountElem : string -> Z.
Variable pathJoin : string -> string -> string.

Definition linkTo (f : tmplFuncs) (file : Util.File) (symbolPath : string) : string :=
  let pkgPath := Util.name file in
  let typePath := TrimElem symbolPath (CountElem (Util.package file)) in
  let p := (stripExt pkgPath ++ Ext (outputFile f))%string in
  let p := pathJoin (rootDir f) p in
  (p ++ "#" ++ typePath)%string.

Definition urlToType (f : tmplFuncs) (symbolPath : string) : outcome string :=
  if negb (Util.IsFullyQualified symbolPath) then
    Panic (PanicMsg "urlToType: not a fully-qualified symbol path")
  else
    match ResolveFile symbolPath (protoFile f) with
    | None => Ret EmptyString
    | Some file => Ret (linkTo f file symbolPath)
    end.

(** typeURL, the revision of urlToType without the guard, on Resolve. *)
Definition typeURL (f : tmplFuncs) (symbolPath : string) : outcome string :=
  match snd (Resolve symbolPath (protoFile f)) with
  | None => Ret EmptyString
  | Some file => Ret (linkTo f file symbolPath)
  end.
End TypeURLs.

(** *** location and its cache *)

Definition descriptorPkg : string :=
  "github.com/golang/protobuf/protoc-gen-go/descriptor".
Definition vendoredDescriptorPkg : string :=
  "/vendor/github.com/golang/protobuf/protoc-gen-go/descriptor".

Definition descriptorType (name : string) : gotype := TNamed descriptorPkg name.

Definition LocationType : gotype := descriptorType "SourceCodeInfo_Location".

(** The nil *descriptor.SourceCodeInfo_Location. *)
Definition nilLocation : value := VPtr LocationType None.

(** The check that opens location: the package path of the (indirected)
    type of x. *)
Definition checkDescriptorType (x : value) : outcome unit :=
  t <- IndirectType x ;;
  let pkgPath := PkgPath t in
  if negb (String.eqb pkgPath EmptyString)
     && negb (String.eqb pkgPath descriptorPkg)
     && negb (GoStrings.HasSuffix pkgPath vendoredDescriptorPkg)
  then Panic (ExpectedDescriptorType pkgPath)
  else Ret tt.

Fixpoint findCachedItem (cache : list cacheItem) (x : value) : outcome value :=
  match cache with
  | [] => Ret nilLocation
  | i :: rest =>
      same <- iface_eq (V i) x ;;
      if same then Ret (L i) else findCachedItem rest x
  end.

(** for _, loc := range ...Location { f.locCache = append(f.locCache, ...) } *)
Fixpoint appendLocations (fd : value) (locs : list value) (cache : list cacheItem)
  : outcome (list cacheItem) :=
  match locs with
  | [] => Ret cache
  | loc :: rest =>
      pathSlice <- selector loc "Path" ;;
      pathElems <- elements pathSlice ;;
      path <- int32s pathElems ;;
      appendLocations fd rest (cache ++ [ {| V := walkPath path fd; L := loc |} ])
  end.

(** f.protoFileDescriptor.SourceCodeInfo.Location *)
Definition sourceLocations (fd : value) : outcome (list value) :=
  info <- selector fd "SourceCodeInfo" ;;
  locs <- selector info "Location" ;;
  elements locs.

Definition buildLocCache (f : tmplFuncs) : outcome tmplFuncs :=
  match locCache f with
  | [] =>
      locs <- sourceLocations (protoFileDescriptor f) ;;
      cache <- appendLocations (protoFileDescriptor f) locs (locCache f) ;;
      Ret (set_locCache f cache)
  | _ :: _ => Ret f
  end.

(** location returns the cached location and leaves the receiver with its
    cache built. *)
Definition location (f : tmplFuncs) (x : value) : outcome (value * tmplFuncs) :=
  _ <- checkDescriptorType x ;;
  f' <- buildLocCache f ;;
  found <- findCachedItem (locCache f') x ;;
  Ret (found, f').

(* ================================================================== *)
(** ** tmpl: the target of a generation (generator.go) *)

Definition FileType : gotype := descriptorType "FileDescriptorProto".
Definition nilFile : value := VPtr FileType None.

(** The generated getter GetName: the empty string on a nil receiver or an
    unset name. *)
Definition GetName (v : value) : string :=
  match selector v "Name" with
  | Ret (VPtr _ (Some (_, VScalar _ (SStr s)))) => s
  | _ => EmptyString
  end.

Fixpoint getProtoFileFromTarget (target : string) (protoFiles : list value) : value :=
  match protoFiles with
  | [] => nilFile
  | v :: rest =>
      if String.eqb target (GetName v) then v else getProtoFileFromTarget target rest
  end.

(** The error errors.Errorf("no input proto file for generator target %q",
    opConfig.Target), by the target its message quotes. *)
Inductive genTargetError : Type :=
| NoInputProtoFile (target : string).

(** The head of genTarget: the file handed to the template functions as
    protoFileDescriptor, or the error returned instead. *)
Definition genTargetFile (target : string) (protoFiles : list value)
  : value + genTargetError :=
  let protoFile := getProtoFileFromTarget target protoFiles in
  if negb (String.eqb target EmptyString) && isNilPtr protoFile
  then inr (NoInputProtoFile target)
  else inl protoFile.

(** tmplFuncs as genTarget builds it: no cache yet. *)
Definition newFuncs (fd : value) (output root : string) (files : list Util.File)
  : tmplFuncs :=
  {| protoFileDescriptor := fd;
     outputFile := output;
     rootDir := root;
     protoFile := files;
     locCache := [] |}.

(* ================================================================== *)
(** ** The descriptor package: struct declarations

    descriptor.pb.go is generated from descriptor.proto and imported, not
    part of the sources at hand.  A declaration lists, in Go field order,
    each field's name and the protobuf entry of its struct tag. *)

Definition struct_decl : Type := list (string * string).

Definition FileDescriptorProto_decl : struct_decl :=
  [ ("Name", "bytes,1,opt,name=name");
    ("Package", "bytes,2,opt,name=package");
    ("Dependency", "bytes,3,rep,name=dependency");
    ("PublicDependency", "varint,10,rep,name=public_dependency,json=publicDependency");
    ("WeakDependency", "varint,11,rep,name=weak_dependency,json=weakDependency");
    ("MessageType", "bytes,4,rep,name=message_type,json=messageType");
    ("EnumType", "bytes,5,rep,name=enum_type,json=enumType");
    ("Service", "bytes,6,rep,name=service");
    ("Extension", "bytes,7,rep,name=extension");
    ("Options", "bytes,8,opt,name=options");
    ("SourceCodeInfo", "bytes,9,opt,name=source_code_info,json=sourceCodeInfo");
    ("Syntax", "bytes,12,opt,name=syntax");
    ("XXX_unrecognized", "") ].

Definition DescriptorProto_decl : struct_decl :=
  [ ("Name", "bytes,1,opt,name=name");
    ("Field", "bytes,2,rep,name=field");
    ("Extension", "bytes,6,rep,name=extension");
    ("NestedType", "bytes,3,rep,name=nested_type,json=nestedType");
    ("EnumType", "bytes,4,rep,name=enum_type,json=enumType");
    ("ExtensionRange", "bytes,5,rep,name=extension_range,json=extensionRange");
    ("OneofDecl", "bytes,8,rep,name=oneof_decl,json=oneofDecl");
    ("Options", "bytes,7,opt,name=options");
    ("ReservedRange", "bytes,9,rep,name=reserved_range,json=reservedRange");
    ("ReservedName", "bytes,10,rep,name=reserved_name,json=reservedName");
    ("XXX_unrecognized", "") ].

Definition FieldDescriptorProto_decl : struct_decl :=
  [ ("Name", "bytes,1,opt,name=name");
    ("Number", "varint,3,opt,name=number");
    ("Label", "varint,4,opt,name=label,enum=google.protobuf.FieldDescriptorProto_Label");
    ("Type", "varint,5,opt,name=type,enum=google.protobuf.FieldDescriptorProto_Type");
    ("TypeName", "bytes,6,opt,name=type_name,json=typeName");
    ("Extendee", "bytes,2,opt,name=extendee");
    ("DefaultValue", "bytes,7,opt,name=default_value,json=defaultValue");
    ("OneofIndex", "varint,9,opt,name=oneof_index,json=oneofIndex");
    ("JsonName", "bytes,10,opt,name=json_name,json=jsonName");
    ("Options", "bytes,8,opt,name=options");
    ("XXX_unrecognized", "") ].


Definition SourceCodeInfo_decl : struct_decl :=
  [ ("Location", "bytes,1,rep,name=location");
    ("XXX_unrecognized", "") ].

Definition SourceCodeInfo_Location_decl : struct_decl :=
  [ ("Path", "varint,1,rep,packed,name=path");
    ("Span", "varint,2,rep,packed,name=span");
    ("LeadingComments", "bytes,3,opt,name=leading_comments,json=leadingComments");
    ("TrailingComments", "bytes,4,opt,name=trailing_comments,json=trailingComments");
    ("LeadingDetachedComments", "bytes,6,rep,name=leading_detached_comments,json=leadingDetachedComments");
    ("XXX_unrecognized", "") ].

Definition MessageType : gotype := descriptorType "DescriptorProto".
Definition FieldType : gotype := descriptorType "FieldDescriptorProto".
Definition SourceCodeInfoType : gotype := descriptorType "SourceCodeInfo".

(** The fields of a struct of declaration [decl] holding [vals], in field
    order. *)
Fixpoint fieldsOf (decl : struct_decl) (vals : list value) : list (sfield value) :=
  match decl, vals with
  | (n, tag) :: decl', v :: vals' => (n, tag, v) :: fieldsOf decl' vals'
  | _, _ => []
  end.

(** A node: the pointer, at address [a], to a struct of the descriptor
    package's type [name], of declaration [decl], holding [vals]. *)
Definition node (name : string) (decl : struct_decl) (a : addr) (vals : list value) : value :=
  VPtr (descriptorType name) (Some (a, VStruct descriptorPkg name (fieldsOf decl vals))).

(* ================================================================== *)
(** ** The walk's dispatch, as implemented and as a static table *)

(** The child protoFields hands to the walker for a target: the callback
    is the walker's own test on the id, keeping the first value it
    accepts. *)
Definition dispatch (nd : value) (target : Z) : option value :=
  protoFields
    (fun id v (found : option value) =>
       if negb (id =? target) then (true, found) else (false, Some v))
    nd None.



(** The table of a declaration, made once from its tags: each tag number
    that parses, with the name of its field. *)
Fixpoint generated_table (decl : struct_decl) : list (Z * string) :=
  match decl with
  | [] => []
  | (n, tag) :: rest =>
      let pieces := GoStrings.Split "," tag in
      if (Z.of_nat (List.length pieces) <? 2) then generated_table rest
      else
        match GoStrings.Atoi (nth 1 pieces EmptyString) with
        | None => generated_table rest
        | Some tagID => (tagID, n) :: generated_table rest
        end
  end.


Fixpoint table_lookup (target : Z) (table : list (Z * string)) : option string :=
  match table with
  | [] => None
  | (tag, accessor) :: rest =>
      if tag =? target then Some accessor else table_lookup target rest
  end.




(** The calls protoFields makes to its callback while the callback asks
    for more: each id with its value, in order. *)
Fixpoint indexed (i : Z) (elems : list value) : list (Z * value) :=
  match elems with
  | [] => []
  | e :: rest => (i, e) :: indexed (i + 1) rest
  end.

Fixpoint tagged (fields : list (sfield value)) : list (Z * value) :=
  match fields with
  | [] => []
  | f :: rest =>
      let pieces := GoStrings.Split "," (ftag f) in
      if (Z.of_nat (List.length pieces) <? 2) then tagged rest
      else
        match GoStrings.Atoi (nth 1 pieces EmptyString) with
        | None => tagged rest
        | Some tagID => (tagID, fval f) :: tagged rest
        end
  end.

Definition children (nd : value) : list (Z * value) :=
  match Indirect nd with
  | VSlice _ elems => indexed 0 elems
  | VStruct _ _ fields => tagged fields
  | _ => []
  end.

Fixpoint first_with (target : Z) (items : list (Z * value)) : option value :=
  match items with
  | [] => None
  | (id, v) :: rest => if id =? target then Some v else first_with target rest
  end.

(** Some step of the path names no child of the node the walk has
    reached. *)
Inductive no_child_on : value -> list Z -> Prop :=
| no_child_here : forall nd target rest,
    dispatch nd target = None ->
    no_child_on nd (target :: rest)
| no_child_below : forall nd target rest child,
    dispatch nd target = Some child ->
    no_child_on child rest ->
    no_child_on nd (target :: rest).

(** loc.Path of a location record. *)
Definition LocationPath (loc : value) : outcome (list Z) :=
  pathSlice <- selector loc "Path" ;;
  pathElems <- elements pathSlice ;;
  int32s pathElems.

(** The value a call returns, without the receiver's new state. *)
Definition result {A B} (m : outcome (A * B)) : outcome A :=
  r <- m ;; Ret (fst r).

(** What location answers for x when the cache holds the records [locs]
    of the file [fd]. *)
Definition lookupAmong (fd : value) (locs : list value) (x : value) : outcome value :=
  _ <- checkDescriptorType x ;;
  cache <- appendLocations fd locs [] ;;
  findCachedItem cache x.

(** Two interface values hold the same non-nil pointer: same pointer type,
    same address.  The cells are not looked at. *)
Definition same_ref (v x : value) : bool :=
  match v, x with
  | VPtr t (Some (a, _)), VPtr u (Some (b, _)) => gotype_eqb t u && Pos.eqb a b
  | _, _ => false
  end.

Definition is_ref (x : value) : bool :=
  match x with
  | VPtr _ (Some _) => true
  | _ => false
  end.

(** The span of the first cached entry holding the pointer x, the nil
    location when there is none. *)
Definition firstIdentical (cache : list cacheItem) (x : value) : value :=
  match find (fun i => same_ref (V i) x) cache with
  | Some i => L i
  | None => nilLocation
  end.

(** The cache entries of records with their paths. *)
Definition itemsFor (fd : value) (locs : list value) (paths : list (list Z))
  : list cacheItem :=
  map (fun lp => {| V := walkPath (snd lp) fd; L := fst lp |}) (combine locs paths).

(** The reading of section 4.1 under which a failed lookup in a file of
    matching package passes on to the later files: the first file whose
    package matches and whose remaining segments resolve. *)
Fixpoint firstResolving (segs : list string) (files : list Util.File)
  : option Util.Defn * option Util.File :=
  match files with
  | [] => (None, None)
  | f :: rest =>
      match (if Util.packageMatches segs f then Util.resolveIn segs f else None) with
      | Some d => (Some d, Some f)
      | None => firstResolving segs rest
      end
  end.

(* ================================================================== *)
(** ** Sample descriptors *)

Module Sample.

Definition StringT : gotype := TBasic "string".
Definition Int32T : gotype := TBasic "int32".

Definition strPtr (a : addr) (s : string) : value :=
  VPtr StringT (Some (a, VScalar StringT (SStr s))).
Definition int32Slice (zs : list Z) : value :=
  VSlice Int32T (map (fun z => VScalar Int32T (SInt z)) zs).
Definition noBytes : value := VSlice (TBasic "uint8") [].

Definition mkLocation (a : addr) (path span : list Z) : value :=
  node "SourceCodeInfo_Location" SourceCodeInfo_Location_decl a
    [ int32Slice path; int32Slice span; VPtr StringT None; VPtr StringT None;
      VSlice StringT []; noBytes ].

Definition mkSourceCodeInfo (a : addr) (locs : list value) : value :=
  node "SourceCodeInfo" SourceCodeInfo_decl a
    [ VSlice (TPtr LocationType) locs; noBytes ].

Definition mkField (a : addr) (nm : string) : value :=
  node "FieldDescriptorProto" FieldDescriptorProto_decl a
    [ strPtr (a~0)%positive nm; VPtr Int32T None;
      VPtr (descriptorType "FieldDescriptorProto_Label") None;
      VPtr (descriptorType "FieldDescriptorProto_Type") None;
      VPtr StringT None; VPtr StringT None; VPtr StringT None; VPtr Int32T None;
      VPtr StringT None; VPtr (descriptorType "FieldOptions") None; noBytes ].

Definition mkMessage (a : addr) (nm : string) (flds nested : list value) : value :=
  node "DescriptorProto" DescriptorProto_decl a
    [ strPtr (a~0)%positive nm; VSlice (TPtr FieldType) flds; VSlice (TPtr FieldType) [];
      VSlice (TPtr MessageType) nested;
      VSlice (TPtr (descriptorType "EnumDescriptorProto")) [];
      VSlice (TPtr (descriptorType "DescriptorProto_ExtensionRange")) [];
      VSlice (TPtr (descriptorType "OneofDescriptorProto")) [];
      VPtr (descriptorType "MessageOptions") None;
      VSlice (TPtr (descriptorType "DescriptorProto_ReservedRange")) [];
      VSlice StringT []; noBytes ].

Definition fileVals (a : addr) (nm pkg : string) (msgs : list value) (info : value)
  : list value :=
  [ strPtr (a~0)%positive nm; strPtr (a~1)%positive pkg; VSlice StringT []; VSlice Int32T [];
    VSlice Int32T []; VSlice (TPtr MessageType) msgs;
    VSlice (TPtr (descriptorType "EnumDescriptorProto")) [];
    VSlice (TPtr (descriptorType "ServiceDescriptorProto")) [];
    VSlice (TPtr FieldType) [];
    VPtr (descriptorType "FileOptions") None; info; VPtr StringT None;
    noBytes ].

Definition mkFile (a : addr) (nm pkg : string) (msgs : list value) (info : value)
  : value :=
  node "FileDescriptorProto" FileDescriptorProto_decl a (fileVals a nm pkg msgs info).

(** message Options { ... height = 1; }, twice: the same text at two
    addresses. *)
Definition height : value := mkField 120%positive "height".
Definition options : value := mkMessage 110%positive "Options" [height] [].
Definition optionsTwin : value := mkMessage 111%positive "Options" [height] [].

(** The records of building.proto: the message, its field, a path to a
    construct the descriptor does not have, and the message once more. *)
Definition locOptions : value := mkLocation 140%positive [4; 0] [3; 0; 5; 1].
Definition locHeight : value := mkLocation 141%positive [4; 0; 2; 0] [4; 2; 18].
Definition locUnknown : value := mkLocation 142%positive [99] [1; 0; 18].
Definition locOptionsAgain : value := mkLocation 143%positive [4; 0] [9; 0; 9; 1].

Definition building : value :=
  mkFile 100%positive "world/region/building.proto" "world.building" [options; optionsTwin]
    (mkSourceCodeInfo 130%positive [locOptions; locHeight; locUnknown; locOptionsAgain]).

(** A file whose only record has a path the walk cannot follow. *)
Definition onlyUnknown : value :=
  mkFile 101%positive "a.proto" "a" [] (mkSourceCodeInfo 131%positive [locUnknown]).

(** A file decoded without source code info. *)
Definition bare : value :=
  mkFile 102%positive "bare.proto" "bare" [options] (VPtr SourceCodeInfoType None).

(** The files of the resolver's fixture, as the resolver's data model
    has them. *)
Definition Options : Util.Defn :=
  Util.mkDefn "Options" Util.message [] [].

Definition buildingFile : Util.File :=
  {| Util.name := "world/region/building.proto";
     Util.package := "world.building";
     Util.dependencies := [];
     Util.topLevelTypes := [Options] |}.

Definition humanFile : Util.File :=
  {| Util.name := "world/region/human.proto";
     Util.package := "world.human";
     Util.dependencies := [];
     Util.topLevelTypes := [Options] |}.

(** A second file of package world.building that does not declare
    Options. *)
Definition buildingExtras : Util.File :=
  {| Util.name := "world/region/building_extras.proto";
     Util.package := "world.building";
     Util.dependencies := [];
     Util.topLevelTypes := [] |}.

Definition funcs (fd : value) (files : list Util.File) : tmplFuncs :=
  newFuncs fd "index.html" "/docs" files.

(** Stand-ins for the helpers of package util and package path. *)
Definition noFile (_ : string) (_ : list Util.File) : option Util.File := None.
Definition fileOfResolve (s : string) (files : list Util.File) : option Util.File :=
  snd (Util.Resolve Util.StopsAtFirstMatch s files).
Definition trimNone (s : string) (_ : Z) : string := s.
Definition countNone (_ : string) : Z := 0.
Definition joinSlash (a b : string) : string := (a ++ "/" ++ b)%string.

End Sample.

(* ================================================================== *)
(** ** tmpl: the other template functions (funcs.go) *)

(** cleanType (typeBaseName in the later revisions): the last piece of
    the path split at the dots.  The index expression split[len(split)-1]
    panics when there is no piece. *)
Definition cleanType (path : string) : outcome string :=
  let split := GoStrings.Split "." path in
  match nth_error split (List.length split - 1)%nat with
  | Some piece => Ret piece
  | None => Panic (PanicMsg "runtime error: index out of range")
  end.

(** *p for a *string. *)
Definition derefString (v : value) : outcome string :=
  cell <- deref v ;;
  match cell with
  | VScalar _ (SStr s) => Ret s
  | _ => Panic IllTyped
  end.

Fixpoint stringsOf (elems : list value) : outcome (list string) :=
  match elems with
  | [] => Ret []
  | VScalar _ (SStr s) :: rest => ss <- stringsOf rest ;; Ret (s :: ss)
  | _ :: _ => Panic IllTyped
  end.


(** *** dict *)

(** A Go map with string keys, by its lookups. *)
Definition gomap (A : Type) : Type := string -> option A.
Definition emptyMap {A} : gomap A := fun _ => None.
Definition mapSet {A} (m : gomap A) (k : string) (a : A) : gomap A :=
  fun k' => if String.eqb k' k then Some a else m k'.

(** What a call of dict gives: the map with a nil error, the error with a
    nil map, or the panic of the type assertion pairs[i].(string), which
    carries the value that is no string. *)
Inductive dictResult : Type :=
| DictMap (m : gomap value)
| DictError (msg : string)
| DictPanic (key : value).

(** for i := 0; i < len(pairs); i += 2 { m[pairs[i].(string)] = pairs[i+1] }
    on a slice of even length. *)
Fixpoint dictLoop (pairs : list value) (m : gomap value) : dictResult :=
  match pairs with
  | key :: v :: rest =>
      match key with
      | VScalar (TBasic "string") (SStr k) => dictLoop rest (mapSet m k v)
      | _ => DictPanic key
      end
  | _ => DictMap m
  end.

Definition dict (pairs : list value) : dictResult :=
  if negb (Z.of_nat (List.length pairs) mod 2 =? 0) then DictError "expected pairs"
  else dictLoop pairs emptyMap.

(** The string s as an interface value. *)
Definition VString (s : string) : value := VScalar (TBasic "string") (SStr s).

(** Keys with their values, laid out as the arguments of dict. *)
Fixpoint asPairs (kvs : list (string * value)) : list value :=
  match kvs with
  | [] => []
  | (k, v) :: rest => VString k :: v :: asPairs rest
  end.

(** The value of the last binding of k. *)
Fixpoint lastBinding {A} (k : string) (kvs : list (string * A)) : option A :=
  match kvs with
  | [] => None
  | (k', a) :: rest =>
      match lastBinding k rest with
      | Some later => Some later
      | None => if String.eqb k k' then Some a else None
      end
  end.

(** The map after the assignments m[k] = a of the bindings, in order. *)
Fixpoint bindAll {A} (kvs : list (string * A)) (m : gomap A) : gomap A :=
  match kvs with
  | [] => m
  | (k, a) :: rest => bindAll rest (mapSet m k a)
  end.

(** The dynamic type of the value is string: pairs[i].(string) holds. *)
Definition isString (v : value) : bool :=
  match v with
  | VScalar (TBasic "string") (SStr _) => true
  | _ => false
  end.

(** *** resolvePkgPath *)

Fixpoint dropTrailingSlashes (s : string) : string :=
  match s with
  | EmptyString => EmptyString
  | String c rest =>
      match dropTrailingSlashes rest with
      | EmptyString => if Ascii.eqb c "/" then EmptyString else String c EmptyString
      | kept => String c kept
      end
  end.

Fixpoint lastElement (s : string) : string :=
  match s with
  | EmptyString => EmptyString
  | String c rest =>
      if containsByte "/" rest then lastElement rest
      else if Ascii.eqb c "/" then rest else s
  end.

(** filepath.Base on a slash-separated system. *)
Definition Base (path : string) : string :=
  match path with
  | EmptyString => "."
  | _ =>
      match lastElement (dropTrailingSlashes path) with
      | EmptyString => "/"
      | element => element
      end
  end.

Fixpoint firstDependency (pkg : string) (deps : list string) : string :=
  match deps with
  | [] => EmptyString
  | p :: rest =>
      if String.eqb (stripExt (Base p)) pkg then p else firstDependency pkg rest
  end.

(** *f.protoFileDescriptor.Name and f.protoFileDescriptor.Dependency *)
Definition fileName (fd : value) : outcome string :=
  namePtr <- selector fd "Name" ;;
  derefString namePtr.

Definition fileDependencies (fd : value) : outcome (list string) :=
  depSlice <- selector fd "Dependency" ;;
  depElems <- elements depSlice ;;
  stringsOf depElems.

Definition resolvePkgPath (f : tmplFuncs) (pkg : string) : outcome string :=
  namePtr <- selector (protoFileDescriptor f) "Name" ;;
  name <- derefString namePtr ;;
  if String.eqb (stripExt (Base name)) pkg then Ret name
  else
    depSlice <- selector (protoFileDescriptor f) "Dependency" ;;
    depElems <- elements depSlice ;;
    deps <- stringsOf depElems ;;
    Ret (firstDependency pkg deps).

(** *** comments *)

Section Comments.
(** The texts that bufio.Scanner yields for the string, line by line, and
    strings.TrimSpace. *)
Variable scanLines : string -> list string.
Variable TrimSpace : string -> string.

(** The body of for scanner.Scan() { ... } on the lines left, with the
    segments and the bytes s gathered so far. *)
Fixpoint commentsLoop (lines : list string) (segments : list string) (s : string)
  : list string * string :=
  match lines with
  | [] => (segments, s)
  | text :: rest =>
      if (0 <? Z.of_nat (String.length s))
         && (Z.of_nat (String.length (TrimSpace text)) =? 0)
      then commentsLoop rest (segments ++ [s]) EmptyString
      else
        let s := if (0 <? Z.of_nat (String.length s)) then (s ++ " ")%string else s in
        commentsLoop rest segments (s ++ text)%string
  end.

Definition comments (c : string) : list string :=
  let '(segments, s) := commentsLoop (scanLines c) [] EmptyString in
  if (0 <? Z.of_nat (String.length s)) then segments ++ [s] else segments.
End Comments.

(** *** protoFields on a struct: the number a field's tag carries *)

(** The tag ID protoFields reads off the protobuf entry of a struct tag:
    none when the entry has fewer than two comma-separated pieces or the
    second is no number. *)
Definition tagNumberOf (tag : string) : option Z :=
  let pieces := GoStrings.Split "," tag in
  if (Z.of_nat (List.length pieces) <? 2) then None
  else GoStrings.Atoi (nth 1 pieces EmptyString).

(** A cached value is a scalar of the basic type [name] with the content
    [s]. *)
Definition same_scalar (name : string) (s : scalar) (v : value) : bool :=
  match v with
  | VScalar (TBasic n) s' => String.eqb n name && scalar_eqb s' s
  | _ => false
  end.

(** The package paths the check of location lets through. *)
Definition acceptedPkgPath (pkgPath : string) : bool :=
  String.eqb pkgPath EmptyString
  || String.eqb pkgPath descriptorPkg
  || GoStrings.HasSuffix pkgPath vendoredDescriptorPkg.

Module MoreSamples.

(** A record for the repeated field message_type as a whole, as protoc
    writes one for a construct that spans several elements. *)
Definition locMessages : value := Sample.mkLocation 144%positive [4] [3; 0; 9; 1].

Definition withFieldRecord : value :=
  Sample.mkFile 103%positive "world/all.proto" "world" [Sample.options]
    (Sample.mkSourceCodeInfo 132%positive [Sample.locOptions; locMessages]).

Definition withDependencies : value :=
  node "FileDescriptorProto" FileDescriptorProto_decl 104%positive
    [ Sample.strPtr 208%positive "world/region/human.proto";
      Sample.strPtr 209%positive "world.human";
      VSlice Sample.StringT [VString "world/base.proto"; VString "lib/v1.2/building.proto"];
      VSlice Sample.Int32T []; VSlice Sample.Int32T [];
      VSlice (TPtr MessageType) [];
      VSlice (TPtr (descriptorType "EnumDescriptorProto")) [];
      VSlice (TPtr (descriptorType "ServiceDescriptorProto")) [];
      VSlice (TPtr FieldType) [];
      VPtr (descriptorType "FileOptions") None;
      VPtr SourceCodeInfoType None; VPtr Sample.StringT None; Sample.noBytes ].

End MoreSamples.

(* ================================================================== *)
(** ** main: the plugin's parameters (cmd/protoc-gen-html) *)

Section Params.
Variable TrimSpace : string -> string.

(** One item key=value of the parameter string: its key and its value. *)
Definition paramOf (p : string) : string * string :=
  let parts := GoStrings.Split "=" p in
  let value :=
    if (1 <? Z.of_nat (List.length parts))
    then TrimSpace (nth 1 parts EmptyString) else EmptyString in
  (TrimSpace (nth 0 parts EmptyString), value).

Fixpoint paramsLoop (items : list string) (params : gomap string) : gomap string :=
  match items with
  | [] => params
  | p :: rest =>
      let '(key, value) := paramOf p in
      paramsLoop rest (mapSet params key value)
  end.

(** paramsToMap, on r.GetParameter(). *)
Definition paramsToMap (parameter : string) : gomap string :=
  paramsLoop (GoStrings.Split "," parameter) emptyMap.
End Params.

(* ================================================================== *)
(** ** tmpl: the generator's loop over the operations (generator.go) *)

Record OperationConfig : Type := {
  Template : string;
  Target : string;
  Output : string
}.

(** plugin.CodeGeneratorResponse_File *)
Record ResponseFile : Type := {
  Name : string;
  Content : string
}.

(** plugin.CodeGeneratorResponse *)
Record Response : Type := {
  File : list ResponseFile;
  Error : option string
}.

Section Generator.
(** genTarget: the file of an operation, or its error as %s prints it. *)
Variable genTarget : OperationConfig -> ResponseFile + string.

Fixpoint generateLoop (operations : list OperationConfig)
         (files : list ResponseFile) (errs : string)
  : list ResponseFile * string :=
  match operations with
  | [] => (files, errs)
  | opConfig :: rest =>
      match genTarget opConfig with
      | inr err => generateLoop rest files (errs ++ err ++ String "010" EmptyString)%string
      | inl f => generateLoop rest (files ++ [f]) errs
      end
  end.

(** generator.Generate, on g.config.Operations. *)
Definition Generate (operations : list OperationConfig) : Response :=
  let '(files, errs) := generateLoop operations [] EmptyString in
  if (0 <? Z.of_nat (String.length errs))
  then {| File := []; Error := Some errs |}
  else {| File := files; Error := None |}.
End Generator.

(** The files the operations give when none fails, the errors when some
    do. *)
Fixpoint filesOf (results : list (ResponseFile + string)) : list ResponseFile :=
  match results with
  | [] => []
  | inl f :: rest => f :: filesOf rest
  | inr _ :: rest => filesOf rest
  end.

Fixpoint errorsOf (results : list (ResponseFile + string)) : string :=
  match results with
  | [] => EmptyString
  | inl _ :: rest => errorsOf rest
  | inr err :: rest => (err ++ String "010" EmptyString ++ errorsOf rest)%string
  end.

Definition failed (r : ResponseFile + string) : bool :=
  match r with inl _ => false | inr _ => true end.

Module GeneratorSamples.

(** A stand-in for genTarget: an operation without target fails. *)
Definition targetOrError (op : OperationConfig) : ResponseFile + string :=
  if String.eqb (Target op) EmptyString then inr "no target"
  else inl {| Name := Output op; Content := Target op |}.

Definition twoOperations : list OperationConfig :=
  [ {| Template := "t.html"; Target := "a.proto"; Output := "a.html" |};
    {| Template := "t.html"; Target := "b.proto"; Output := "b.html" |} ].

End GeneratorSamples.

(* ================================================================== *)
(** ** The walk: protoFields with a callback that picks one id *)

Section Selective.
Context {S : Type}.
Variable fn : Z -> value -> S -> bool * S.
(** The id the callback waits for, read from its state. *)
Variable wanted : S -> Z.
Hypothesis fn_skips : forall id v s, id <> wanted s -> fn id v s = (true, s).
Hypothesis fn_stops : forall v s, fst (fn (wanted s) v s) = false.

Lemma each_index_selective (elems : list value) :
  forall i s,
    each_index fn i elems s
    = match first_with (wanted s) (indexed i elems) with
      | Some v => snd (fn (wanted s) v s)
      | None => s
      end.
Proof.
  induction elems as [|e rest IH]; intros i s; simpl.
  - reflexivity.
  - destruct (Z.eqb_spec i (wanted s)) as [->|Hne].
    + specialize (fn_stops e s). destruct (fn (wanted s) e s) as [c s'].
      simpl in fn_stops. now subst c.
    + rewrite (fn_skips i e s Hne). apply IH.
Qed.

Lemma each_field_selective (fields : list (sfield value)) :
  forall s,
    each_field fn fields s
    = match first_with (wanted s) (tagged fields) with
      | Some v => snd (fn (wanted s) v s)
      | None => s
      end.
Proof.
  induction fields as [|f rest IH]; intros s; simpl.
  - reflexivity.
  - destruct (Z.of_nat (List.length (GoStrings.Split "," (ftag f))) <? 2).
    + apply IH.
    + destruct (GoStrings.Atoi (nth 1 (GoStrings.Split "," (ftag f)) "")) as [tagID|].
      * simpl. destruct (Z.eqb_spec tagID (wanted s)) as [->|Hne].
        -- specialize (fn_stops (fval f) s). destruct (fn (wanted s) (fval f) s) as [c s'].
           simpl in fn_stops. now subst c.
        -- rewrite (fn_skips tagID (fval f) s Hne). apply IH.
      * apply IH.
Qed.

Lemma protoFields_selective (nd : value) (s : S) :
  protoFields fn nd s
  = match first_with (wanted s) (children nd) with
    | Some v => snd (fn (wanted s) v s)
    | None => s
    end.
Proof.
  unfold protoFields, children.
  destruct (Indirect nd); try reflexivity.
  - apply each_index_selective.
  - apply each_field_selective.
Qed.
End Selective.

Lemma dispatch_first_with (nd : value) (target : Z) :
  dispatch nd target = first_with target (children nd).
Proof.
  unfold dispatch.
  rewrite (protoFields_selective _ (fun _ => target)).
  - destruct (first_with target (children nd)); [|reflexivity].
    now rewrite Z.eqb_refl.
  - intros id v s Hne. apply Z.eqb_neq in Hne. now rewrite Hne.
  - intros v s. now rewrite Z.eqb_refl.
Qed.

Lemma walker_skips (path : list Z) (target id : Z) (v found : value) :
  id <> target -> walker path target id v found = (true, found).
Proof.
  intros Hne. apply Z.eqb_neq in Hne.
  destruct path; simpl; now rewrite Hne.
Qed.

Lemma walker_stops (path : list Z) (target : Z) (v found : value) :
  fst (walker path target target v found) = false.
Proof. destruct path; simpl; now rewrite Z.eqb_refl. Qed.

Lemma walker_hit (path : list Z) (target : Z) (v found : value) :
  snd (walker path target target v found)
  = match path with
    | [] => v
    | target' :: path' => protoFields (walker path' target') v found
    end.
Proof. destruct path; simpl; now rewrite Z.eqb_refl. Qed.

(** One step of the walk: the child protoFields selects for the head of
    the path, walked from with the rest of the path; nil when there is no
    such child. *)
Lemma walkPath_step (target : Z) (path : list Z) (nd : value) :
  walkPath (target :: path) nd
  = match dispatch nd target with
    | Some child => walkPath path child
    | None => VNil
    end.
Proof.
  rewrite dispatch_first_with. unfold walkPath at 1.
  rewrite (protoFields_selective _ (fun _ => target)).
  - destruct (first_with target (children nd)) as [child|]; [|reflexivity].
    rewrite walker_hit. now destruct path.
  - intros. now apply walker_skips.
  - intros. apply walker_stops.
Qed.

Lemma walker_closure_skips (depth : nat) (id : Z) (v : value) (st : walk_state) :
  id <> target st -> walker_closure depth id v st = (true, st).
Proof.
  intros Hne. apply Z.eqb_neq in Hne.
  destruct depth; simpl; now rewrite Hne.
Qed.

Lemma walker_closure_stops (depth : nat) (v : value) (st : walk_state) :
  fst (walker_closure depth (target st) v st) = false.
Proof.
  destruct depth; simpl; rewrite Z.eqb_refl; simpl; now destruct (path st).
Qed.

(** The closure with its assignments computes the same walk, the bound
    being the length of the path or more. *)
Lemma walker_closure_eq (p : list Z) :
  forall depth tgt nd fnd,
    (List.length p <= depth)%nat ->
    found (protoFields (walker_closure depth) nd
             {| target := tgt; path := p; found := fnd |})
    = protoFields (walker p tgt) nd fnd.
Proof.
  induction p as [|tgt' p' IH]; intros depth tgt nd fnd Hdepth;
    rewrite (protoFields_selective (walker_closure depth) target
               (walker_closure_skips depth) (walker_closure_stops depth)),
            (protoFields_selective (walker _ tgt) (fun _ => tgt)
               (fun id v s => walker_skips _ tgt id v s) (walker_stops _ tgt));
    cbn [target]; destruct (first_with tgt (children nd)) as [child|];
    try reflexivity; rewrite walker_hit.
  - destruct depth; simpl; now rewrite Z.eqb_refl.
  - destruct depth as [|depth]; [simpl in Hdepth; lia|].
    simpl. rewrite Z.eqb_refl. simpl. apply IH. simpl in Hdepth. lia.
Qed.

Lemma walkPath_closure_eq (p : list Z) (fd : value) :
  walkPath_closure p fd = walkPath p fd.
Proof.
  destruct p as [|tgt p']; [reflexivity|].
  unfold walkPath_closure, walkPath. now apply walker_closure_eq.
Qed.

Lemma walkPath_no_child (nd : value) (path : list Z) :
  no_child_on nd path -> walkPath path nd = VNil.
Proof.
  induction 1 as [nd target rest Hnone | nd target rest child Hsome _ IH];
    rewrite walkPath_step.
  - now rewrite Hnone.
  - now rewrite Hsome.
Qed.

(* ================================================================== *)
(** ** The cache: comparison, scan and build *)

Lemma gotype_eqb_refl (t : gotype) : gotype_eqb t t = true.
Proof.
  induction t; simpl; rewrite ?String.eqb_refl; auto.
Qed.

(** Against a non-nil pointer, [==] never panics and is the identity of
    pointers. *)
Lemma iface_eq_ref (v x : value) :
  is_ref x = true -> iface_eq v x = Ret (same_ref v x).
Proof.
  destruct x as [| | |u [[b c]|]|]; try discriminate. intros _.
  unfold iface_eq, same_dynamic_type.
  destruct v as [|t s|e l|t [[a c']|]|p n fs]; simpl; try reflexivity.
  - now destruct (gotype_eqb t (TPtr u)).
  - now destruct (gotype_eqb t u).
  - now destruct (gotype_eqb t u).
Qed.

(** The nil interface equals no value but itself. *)
Lemma iface_eq_nil (x : value) :
  x <> VNil -> iface_eq VNil x = Ret false.
Proof. destruct x; intros H; try reflexivity. now elim H. Qed.

Lemma checked_not_nil (x : value) :
  checkDescriptorType x = Ret tt -> x <> VNil.
Proof. intros H ->. discriminate. Qed.

Lemma findCachedItem_ref (cache : list cacheItem) (x : value) :
  is_ref x = true -> findCachedItem cache x = Ret (firstIdentical cache x).
Proof.
  intros Hx. unfold firstIdentical.
  induction cache as [|i rest IH]; simpl.
  - reflexivity.
  - rewrite (iface_eq_ref _ _ Hx). simpl.
    destruct (same_ref (V i) x); [reflexivity | apply IH].
Qed.

(** An entry without node is passed over by the scan for any value but
    nil. *)
Lemma findCachedItem_skip_nil (before after : list cacheItem) (loc x : value) :
  x <> VNil ->
  findCachedItem (before ++ {| V := VNil; L := loc |} :: after) x
  = findCachedItem (before ++ after) x.
Proof.
  intros Hx. induction before as [|i rest IH]; simpl.
  - now rewrite (iface_eq_nil _ Hx).
  - destruct (iface_eq (V i) x) as [[|]|]; simpl; auto.
Qed.

Lemma appendLocations_app (fd : value) (locs more : list value) :
  forall cache,
    appendLocations fd (locs ++ more) cache
    = (c <- appendLocations fd locs cache ;; appendLocations fd more c).
Proof.
  induction locs as [|loc rest IH]; intros cache; simpl.
  - reflexivity.
  - destruct (selector loc "Path") as [ps|]; simpl; [|reflexivity].
    destruct (elements ps) as [es|]; simpl; [|reflexivity].
    destruct (int32s es) as [path|]; simpl; [|reflexivity].
    apply IH.
Qed.

Lemma appendLocations_one (fd loc : value) (path : list Z) (cache : list cacheItem) :
  LocationPath loc = Ret path ->
  appendLocations fd [loc] cache = Ret (cache ++ [ {| V := walkPath path fd; L := loc |} ]).
Proof.
  unfold LocationPath. intros H. simpl.
  destruct (selector loc "Path") as [ps|]; simpl in *; [|discriminate].
  destruct (elements ps) as [es|]; simpl in *; [|discriminate].
  destruct (int32s es) as [p|]; simpl in *; [|discriminate].
  now inversion H.
Qed.

(** The build appends one entry for each record, in the records' order. *)
Lemma appendLocations_items (fd : value) (locs : list value) (paths : list (list Z)) :
  Forall2 (fun loc path => LocationPath loc = Ret path) locs paths ->
  forall cache,
    appendLocations fd locs cache = Ret (cache ++ itemsFor fd locs paths).
Proof.
  induction 1 as [|loc path locs paths Hloc _ IH]; intros cache.
  - simpl. now rewrite app_nil_r.
  - change (loc :: locs) with ([loc] ++ locs).
    rewrite appendLocations_app, (appendLocations_one _ _ _ _ Hloc). simpl.
    rewrite IH, <- app_assoc. reflexivity.
Qed.

(** Appending to a cache is appending to the empty one, in front of which
    the cache stays. *)
Lemma appendLocations_from (fd : value) (locs : list value) :
  forall cache,
    appendLocations fd locs cache
    = (items <- appendLocations fd locs [] ;; Ret (cache ++ items)).
Proof.
  induction locs as [|loc rest IH]; intros cache; simpl.
  - now rewrite app_nil_r.
  - destruct (selector loc "Path") as [ps|]; simpl; [|reflexivity].
    destruct (elements ps) as [es|]; simpl; [|reflexivity].
    destruct (int32s es) as [path|]; simpl; [|reflexivity].
    rewrite (IH (cache ++ _)), (IH [_]).
    destruct (appendLocations fd rest []) as [items|]; simpl; [|reflexivity].
    now rewrite <- app_assoc.
Qed.

Lemma buildLocCache_first (f : tmplFuncs) (locs : list value) :
  locCache f = [] ->
  sourceLocations (protoFileDescriptor f) = Ret locs ->
  buildLocCache f
  = (cache <- appendLocations (protoFileDescriptor f) locs [] ;;
     Ret (set_locCache f cache)).
Proof.
  intros Hnil Hlocs. unfold buildLocCache. rewrite Hnil, Hlocs. reflexivity.
Qed.

(** Once built, the cache is what a further call finds: building again
    changes nothing. *)
Lemma buildLocCache_again (f f' : tmplFuncs) :
  buildLocCache f = Ret f' -> buildLocCache f' = Ret f'.
Proof.
  unfold buildLocCache.
  destruct (locCache f) as [|i c] eqn:Hc.
  - destruct (sourceLocations (protoFileDescriptor f)) as [locs|] eqn:Hs;
      simpl; [|discriminate].
    destruct (appendLocations (protoFileDescriptor f) locs []) as [cache|] eqn:Ha;
      simpl; [|discriminate].
    intros H. inversion H. subst f'. simpl.
    destruct cache as [|i c]; [|reflexivity].
    rewrite Hs. simpl. rewrite Ha. reflexivity.
  - intros H. inversion H. subst f'. now rewrite Hc.
Qed.

(** A call of location on a receiver whose cache is built: the check, then
    the scan. *)
Lemma location_built (f0 f : tmplFuncs) (x : value) :
  buildLocCache f0 = Ret f ->
  location f x
  = (_ <- checkDescriptorType x ;;
     found <- findCachedItem (locCache f) x ;;
     Ret (found, f)).
Proof.
  intros H. unfold location. now rewrite (buildLocCache_again _ _ H).
Qed.

(** The first call of location on a file with records [locs]. *)
Lemma location_first (f : tmplFuncs) (locs : list value) (x : value) :
  locCache f = [] ->
  sourceLocations (protoFileDescriptor f) = Ret locs ->
  result (location f x) = lookupAmong (protoFileDescriptor f) locs x.
Proof.
  intros Hnil Hlocs. unfold result, location, lookupAmong.
  rewrite (buildLocCache_first _ _ Hnil Hlocs).
  destruct (checkDescriptorType x); simpl; [|reflexivity].
  destruct (appendLocations (protoFileDescriptor f) locs []) as [cache|];
    simpl; [|reflexivity].
  destruct (findCachedItem cache x); reflexivity.
Qed.

(** A record whose path finds no node leaves every answer as it is
    without the record. *)
Lemma lookupAmong_without (fd : value) (before after : list value)
      (loc : value) (path : list Z) (x : value) :
  LocationPath loc = Ret path ->
  walkPath path fd = VNil ->
  lookupAmong fd (before ++ loc :: after) x = lookupAmong fd (before ++ after) x.
Proof.
  intros Hpath Hwalk. unfold lookupAmong.
  destruct (checkDescriptorType x) as [[]|] eqn:Hx; simpl; [|reflexivity].
  apply checked_not_nil in Hx.
  change (loc :: after) with ([loc] ++ after).
  rewrite !appendLocations_app.
  destruct (appendLocations fd before []) as [c1|]; cbn [bind]; [|reflexivity].
  rewrite appendLocations_app, (appendLocations_one _ _ _ _ Hpath). cbn [bind].
  rewrite (appendLocations_from fd after (c1 ++ _)), (appendLocations_from fd after c1).
  destruct (appendLocations fd after []) as [c2|]; cbn [bind]; [|reflexivity].
  rewrite Hwalk, <- app_assoc. cbn [app].
  now apply findCachedItem_skip_nil.
Qed.

(** A later call of location on a file with records [locs], the cache
    built by an earlier call. *)
Lemma location_later (f f' : tmplFuncs) (locs : list value) (y : value) :
  locCache f = [] ->
  sourceLocations (protoFileDescriptor f) = Ret locs ->
  buildLocCache f = Ret f' ->
  result (location f' y) = lookupAmong (protoFileDescriptor f) locs y.
Proof.
  intros Hnil Hlocs Hbuild.
  rewrite (location_built _ _ _ Hbuild).
  rewrite (buildLocCache_first _ _ Hnil Hlocs) in Hbuild.
  unfold result, lookupAmong.
  destruct (checkDescriptorType y); simpl; [|reflexivity].
  destruct (appendLocations (protoFileDescriptor f) locs []) as [cache|];
    simpl in *; [|discriminate].
  inversion Hbuild. simpl.
  destruct (findCachedItem cache y); reflexivity.
Qed.

Lemma same_ref_refl (x : value) : is_ref x = true -> same_ref x x = true.
Proof.
  destruct x as [| | |t [[a c]|]|]; try discriminate. intros _. simpl.
  now rewrite gotype_eqb_refl, Pos.eqb_refl.
Qed.

Lemma itemsFor_app (fd : value) (locs locs' : list value) (paths paths' : list (list Z)) :
  List.length locs = List.length paths ->
  itemsFor fd (locs ++ locs') (paths ++ paths')
  = itemsFor fd locs paths ++ itemsFor fd locs' paths'.
Proof.
  revert paths. unfold itemsFor.
  induction locs as [|loc locs IH]; intros [|p paths] Hlen; try discriminate.
  - reflexivity.
  - simpl. f_equal. apply IH. now inversion Hlen.
Qed.

Lemma find_none_among_items (fd x : value) (locs : list value) (paths : list (list Z)) :
  Forall (fun p => same_ref (walkPath p fd) x = false) paths ->
  find (fun i => same_ref (V i) x) (itemsFor fd locs paths) = None.
Proof.
  intros Hall. revert locs.
  induction Hall as [|p paths Hp _ IH]; intros [|loc locs]; try reflexivity.
  unfold itemsFor in *. simpl. rewrite Hp. apply IH.
Qed.

Lemma find_app_none {A} (p : A -> bool) (l m : list A) :
  find p l = None -> find p (l ++ m) = find p m.
Proof.
  induction l as [|a l IH]; simpl; [reflexivity|].
  destruct (p a); [discriminate | exact IH].
Qed.

(* ================================================================== *)
(** ** The location walker and the location cache: the claims *)

(** A node of the descriptor package is a non-nil pointer and passes the
    type check of location. *)
Lemma node_is_checked (name : string) (decl : struct_decl) (a : addr) (vals : list value) :
  is_ref (node name decl a vals) = true
  /\ checkDescriptorType (node name decl a vals) = Ret tt.
Proof. split; reflexivity. Qed.

(** An unknown tag number, an index past the end and a step below a
    scalar: each is a path without child. *)
Example paths_without_child :
  no_child_on Sample.building [99]
  /\ no_child_on Sample.building [4; 2]
  /\ no_child_on Sample.building [4; 0; 2; 0; 1; 0]
  /\ walkPath [4; 2] Sample.building = VNil
  /\ walkPath [4; 0; 2; 0; 1; 0] Sample.building = VNil.
Proof.
  repeat split.
  - apply no_child_here. reflexivity.
  - eapply no_child_below; [reflexivity|]. apply no_child_here. reflexivity.
  - do 5 (eapply no_child_below; [reflexivity|]). apply no_child_here. reflexivity.
Qed.

(** C9.  For every file, walkPath applied to the empty index-path returns
    the root file itself. *)
Theorem walkPath_empty_path (fd : value) : walkPath [] fd = fd.
Proof. reflexivity. Qed.

(** C4.  When some step of an index-path names no child of the node the
    walk has reached (an unknown tag number, an index out of range, at
    the end of the path or before), walkPath returns nil, the "no node"
    result; walkPath is a total function, nothing in it panics.  A
    location record with such a path changes no answer of location on the
    same file, at the call that builds the cache and at every later call:
    each answer is the one the other records alone give. *)
Theorem walkPath_unknown_step (fd : value) (path : list Z) :
  no_child_on fd path ->
  walkPath path fd = VNil
  /\ forall (f : tmplFuncs) (before after : list value) (loc : value),
       protoFileDescriptor f = fd ->
       locCache f = [] ->
       sourceLocations fd = Ret (before ++ loc :: after) ->
       LocationPath loc = Ret path ->
       (forall x, result (location f x) = lookupAmong fd (before ++ after) x)
       /\ (forall f' y,
             buildLocCache f = Ret f' ->
             result (location f' y) = lookupAmong fd (before ++ after) y).
Proof.
  intros Hdead. pose proof (walkPath_no_child _ _ Hdead) as Hnil.
  split; [exact Hnil|].
  intros f before after loc Hfd Hcache Hlocs Hpath. subst fd. split.
  - intros x. rewrite (location_first _ _ _ Hcache Hlocs).
    now apply lookupAmong_without with (path := path).
  - intros f' y Hbuild. rewrite (location_later _ _ _ _ Hcache Hlocs Hbuild).
    now apply lookupAmong_without with (path := path).
Qed.

Lemma walkPath_unknown_step_witness :
  no_child_on Sample.building [99] /\ walkPath [99] Sample.building = VNil.
Proof.
  assert (H : no_child_on Sample.building [99])
    by (apply no_child_here; vm_compute; reflexivity).
  split; [exact H | exact (proj1 (walkPath_unknown_step _ _ H))].
Defined.

(** C6.  Once the cache is built, location answers a node (a non-nil
    pointer that passes the type check) by scanning the cached list in
    order and comparing pointers: it returns the location of the first
    entry holding the same pointer, the nil location when no entry holds
    it.  An entry whose node has the same content at another address is
    passed over. *)
Theorem location_scans_by_identity (f0 f : tmplFuncs) (x : value) :
  buildLocCache f0 = Ret f ->
  is_ref x = true ->
  checkDescriptorType x = Ret tt ->
  location f x = Ret (firstIdentical (locCache f) x, f)
  /\ findCachedItem (locCache f) x = Ret (firstIdentical (locCache f) x)
  /\ forall t a b cell loc rest,
       a <> b ->
       findCachedItem ({| V := VPtr t (Some (a, cell)); L := loc |} :: rest)
                      (VPtr t (Some (b, cell)))
       = findCachedItem rest (VPtr t (Some (b, cell))).
Proof.
  intros Hbuilt Hx Hcheck. repeat split.
  - rewrite (location_built _ _ _ Hbuilt), Hcheck. simpl.
    now rewrite (findCachedItem_ref _ _ Hx).
  - now apply findCachedItem_ref.
  - intros t a b cell loc rest Hab. simpl.
    rewrite iface_eq_ref by reflexivity. simpl.
    apply Pos.eqb_neq in Hab. now rewrite Hab, andb_false_r.
Qed.

Lemma location_scans_by_identity_witness :
  location (set_locCache (Sample.funcs Sample.building [])
              [ {| V := Sample.options; L := Sample.locOptions |};
                {| V := Sample.optionsTwin; L := Sample.locHeight |} ])
           Sample.optionsTwin
  = Ret (Sample.locHeight,
         set_locCache (Sample.funcs Sample.building [])
              [ {| V := Sample.options; L := Sample.locOptions |};
                {| V := Sample.optionsTwin; L := Sample.locHeight |} ]).
Proof.
  exact (proj1 (location_scans_by_identity
                  (set_locCache (Sample.funcs Sample.building [])
                     [ {| V := Sample.options; L := Sample.locOptions |};
                       {| V := Sample.optionsTwin; L := Sample.locHeight |} ])
                  _ Sample.optionsTwin eq_refl eq_refl eq_refl)).
Defined.

(** C2, as the code has it.  For a location record whose index-path walks
    to a node (a non-nil pointer that passes the type check of location),
    and before which no record walks to the same node, location of that
    node returns exactly that record.  (A record whose path finds no node,
    or a node an earlier record also reaches, is not returned for it.) *)
Theorem location_round_trip
        (f : tmplFuncs) (before after : list value) (loc : value)
        (pathsBefore pathsAfter : list (list Z)) (path : list Z) :
  let fd := protoFileDescriptor f in
  let x := walkPath path fd in
  locCache f = [] ->
  sourceLocations fd = Ret (before ++ loc :: after) ->
  Forall2 (fun l p => LocationPath l = Ret p) before pathsBefore ->
  LocationPath loc = Ret path ->
  Forall2 (fun l p => LocationPath l = Ret p) after pathsAfter ->
  is_ref x = true ->
  checkDescriptorType x = Ret tt ->
  Forall (fun p => same_ref (walkPath p fd) x = false) pathsBefore ->
  result (location f x) = Ret loc.
Proof.
  intros fd x Hcache Hlocs Hbefore Hloc Hafter Hx Hcheck Hfirst.
  rewrite (location_first _ _ _ Hcache Hlocs). unfold lookupAmong.
  rewrite Hcheck. cbn [bind].
  assert (Hall : Forall2 (fun l p => LocationPath l = Ret p)
                         (before ++ loc :: after) (pathsBefore ++ path :: pathsAfter))
    by (apply Forall2_app; [assumption | now constructor]).
  rewrite (appendLocations_items _ _ _ Hall). cbn [bind app].
  rewrite (findCachedItem_ref _ _ Hx). f_equal. unfold firstIdentical.
  change (loc :: after) with ([loc] ++ after).
  change (path :: pathsAfter) with ([path] ++ pathsAfter).
  rewrite itemsFor_app by (exact (Forall2_length Hbefore)).
  rewrite find_app_none by (now apply find_none_among_items).
  unfold itemsFor. simpl. fold fd. fold x.
  now rewrite (same_ref_refl _ Hx).
Qed.

Lemma location_round_trip_witness :
  result (location (Sample.funcs Sample.building []) Sample.height)
  = Ret Sample.locHeight.
Proof.
  apply (location_round_trip (Sample.funcs Sample.building [])
           [Sample.locOptions] [Sample.locUnknown; Sample.locOptionsAgain]
           Sample.locHeight [[4; 0]] [[99]; [4; 0]] [4; 0; 2; 0]).
  - reflexivity.
  - reflexivity.
  - repeat constructor.
  - reflexivity.
  - repeat constructor.
  - reflexivity.
  - reflexivity.
  - repeat constructor.
Defined.

(** C2 fails as stated.  Of the records of building.proto, one has a path
    that walks to no node, and one walks to a node whose lookup returns
    another record, the first that reaches the node. *)
Lemma location_round_trip_fails :
  sourceLocations Sample.building
  = Ret [Sample.locOptions; Sample.locHeight; Sample.locUnknown; Sample.locOptionsAgain]
  /\ LocationPath Sample.locUnknown = Ret [99]
  /\ walkPath [99] Sample.building = VNil
  /\ LocationPath Sample.locOptionsAgain = Ret [4; 0]
  /\ result (location (Sample.funcs Sample.building [])
                      (walkPath [4; 0] Sample.building))
     = Ret Sample.locOptions
  /\ Sample.locOptions <> Sample.locOptionsAgain.
Proof.
  repeat split; try (vm_compute; reflexivity).
  discriminate.
Qed.

(** C5, as the code has it.  Building the cache appends one entry for
    every location record, in the records' order; a record whose path
    walks to no node is kept, as an entry with the nil node.  Such an
    entry equals no value that passes the type check of location, so it
    answers no lookup; and the build returns: the record is no error. *)
Theorem buildLocCache_keeps_every_record
        (f : tmplFuncs) (locs : list value) (paths : list (list Z)) :
  let fd := protoFileDescriptor f in
  locCache f = [] ->
  sourceLocations fd = Ret locs ->
  Forall2 (fun l p => LocationPath l = Ret p) locs paths ->
  buildLocCache f = Ret (set_locCache f (itemsFor fd locs paths))
  /\ (forall loc path,
        In (loc, path) (combine locs paths) ->
        walkPath path fd = VNil ->
        In {| V := VNil; L := loc |} (itemsFor fd locs paths))
  /\ (forall x, checkDescriptorType x = Ret tt -> iface_eq VNil x = Ret false).
Proof.
  intros fd Hcache Hlocs Hpaths. repeat split.
  - rewrite (buildLocCache_first _ _ Hcache Hlocs).
    fold fd. now rewrite (appendLocations_items _ _ _ Hpaths).
  - intros loc path Hin Hnil. unfold itemsFor.
    apply in_map_iff. exists (loc, path). simpl. now rewrite Hnil.
  - intros x Hx. apply iface_eq_nil. now apply checked_not_nil.
Qed.

Lemma buildLocCache_keeps_every_record_witness :
  buildLocCache (Sample.funcs Sample.onlyUnknown [])
  = Ret (set_locCache (Sample.funcs Sample.onlyUnknown [])
           (itemsFor Sample.onlyUnknown [Sample.locUnknown] [[99]])).
Proof.
  apply (buildLocCache_keeps_every_record
           (Sample.funcs Sample.onlyUnknown []) [Sample.locUnknown] [[99]]).
  - reflexivity.
  - reflexivity.
  - repeat constructor.
Defined.

(** C5 fails as stated.  The one record of a.proto has a path that walks
    to no node, and the cache built for a.proto holds it. *)
Lemma buildLocCache_keeps_dead_record :
  LocationPath Sample.locUnknown = Ret [99]
  /\ walkPath [99] Sample.onlyUnknown = VNil
  /\ exists f',
       buildLocCache (Sample.funcs Sample.onlyUnknown []) = Ret f'
       /\ locCache f' = [ {| V := VNil; L := Sample.locUnknown |} ].
Proof.
  repeat split.
  eexists. split; vm_compute; reflexivity.
Qed.

(** C10.  On a receiver as genTarget makes it (no cache yet) whose file
    descriptor is nil, or whose file descriptor has no source code info,
    the first call of location panics, whatever its argument: when the
    argument passes the type check, with the nil dereference of the cache
    build.  And genTarget does hand on a nil file descriptor: for the
    empty target, when no input file has the empty name. *)
Theorem location_without_source_info (f : tmplFuncs) (x : value) :
  locCache f = [] ->
  (protoFileDescriptor f = nilFile
   \/ exists t, selector (protoFileDescriptor f) "SourceCodeInfo" = Ret (VPtr t None)) ->
  returns (location f x) = false
  /\ (checkDescriptorType x = Ret tt -> location f x = Panic NilDereference)
  /\ forall protoFiles,
       Forall (fun v => GetName v <> EmptyString) protoFiles ->
       genTargetFile EmptyString protoFiles = inl nilFile.
Proof.
  intros Hcache Hfd.
  assert (Hbuild : buildLocCache f = Panic NilDereference).
  { unfold buildLocCache, sourceLocations. rewrite Hcache.
    destruct Hfd as [-> | [t ->]]; reflexivity. }
  repeat split.
  - unfold location. destruct (checkDescriptorType x); simpl; [|reflexivity].
    now rewrite Hbuild.
  - intros Hcheck. unfold location. rewrite Hcheck. simpl. now rewrite Hbuild.
  - intros protoFiles Hnames. unfold genTargetFile. simpl.
    induction Hnames as [|v rest Hv _ IH]; simpl; [reflexivity|].
    destruct (GetName v) eqn:E; [now elim Hv | exact IH].
Qed.

Lemma location_without_source_info_witness :
  location (Sample.funcs Sample.bare []) Sample.options = Panic NilDereference
  /\ location (Sample.funcs nilFile []) Sample.options = Panic NilDereference.
Proof.
  split.
  - apply (location_without_source_info (Sample.funcs Sample.bare []) Sample.options).
    + reflexivity.
    + right. exists SourceCodeInfoType. reflexivity.
    + reflexivity.
  - apply (location_without_source_info (Sample.funcs nilFile []) Sample.options).
    + reflexivity.
    + left. reflexivity.
    + reflexivity.
Defined.

(* ================================================================== *)
(** ** The dispatch of the walk and the schema's table *)

Lemma table_lookup_names (target : Z) (decl : struct_decl) (accessor : string) :
  table_lookup target (generated_table decl) = Some accessor ->
  In accessor (map fst decl).
Proof.
  induction decl as [|[n tag] rest IH]; simpl; [discriminate|].
  destruct (Z.of_nat (List.length (GoStrings.Split "," tag)) <? 2); [auto|].
  destruct (GoStrings.Atoi (nth 1 (GoStrings.Split "," tag) "")) as [tagID|]; [|auto].
  simpl. destruct (tagID =? target); [|auto].
  intros H. inversion H. now left.
Qed.

Lemma lookup_field_later (n tag accessor : string) (v : value) (rest : list (sfield value)) :
  n <> accessor ->
  lookup_field accessor ((n, tag, v) :: rest) = lookup_field accessor rest.
Proof.
  intros Hne. simpl. unfold fname. simpl.
  apply String.eqb_neq in Hne. now rewrite Hne.
Qed.

(** Whatever the declaration of a struct, its field names being distinct:
    reading the tags at each call selects the child that the table made
    once from the declaration selects. *)
Lemma dispatch_is_generated_table (decl : struct_decl) :
  NoDup (map fst decl) ->
  forall vals target,
    List.length vals = List.length decl ->
    first_with target (tagged (fieldsOf decl vals))
    = match table_lookup target (generated_table decl) with
      | None => None
      | Some accessor => lookup_field accessor (fieldsOf decl vals)
      end.
Proof.
  induction decl as [|[n tag] rest IH]; intros Hnames vals target Hlen.
  - reflexivity.
  - destruct vals as [|v vals]; [discriminate|].
    inversion Hnames as [|? ? Hfresh Hrest]. subst.
    injection Hlen as Hlen.
    specialize (IH Hrest vals target Hlen).
    assert (Hskip : forall accessor,
               table_lookup target (generated_table rest) = Some accessor ->
               lookup_field accessor (fieldsOf ((n, tag) :: rest) (v :: vals))
               = lookup_field accessor (fieldsOf rest vals)).
    { intros accessor Hacc. apply lookup_field_later.
      intros ->. apply Hfresh. now apply table_lookup_names with (target := target). }
    cbn [fieldsOf tagged generated_table ftag fval fst snd].
    destruct (Z.of_nat (List.length (GoStrings.Split "," tag)) <? 2).
    + rewrite IH. destruct (table_lookup target (generated_table rest)) eqn:E;
        [symmetry; now apply Hskip | reflexivity].
    + destruct (GoStrings.Atoi (nth 1 (GoStrings.Split "," tag) "")) as [tagID|].
      * cbn [first_with table_lookup]. destruct (tagID =? target).
        -- simpl. unfold fname. simpl. now rewrite String.eqb_refl.
        -- rewrite IH. destruct (table_lookup target (generated_table rest)) eqn:E;
             [symmetry; now apply Hskip | reflexivity].
      * rewrite IH. destruct (table_lookup target (generated_table rest)) eqn:E;
          [symmetry; now apply Hskip | reflexivity].
Qed.

Lemma first_with_indexed (elems : list value) :
  forall i target,
    first_with target (indexed i elems)
    = if target <? i then None else nth_error elems (Z.to_nat (target - i)).
Proof.
  induction elems as [|e rest IH]; intros i target; simpl.
  - destruct (target <? i); [reflexivity|]. now destruct (Z.to_nat (target - i)).
  - destruct (Z.eqb_spec i target) as [->|Hne].
    + rewrite Z.ltb_irrefl, Z.sub_diag. reflexivity.
    + rewrite IH. destruct (Z.ltb_spec target i) as [Hlt|Hge].
      * destruct (Z.ltb_spec target (i + 1)); [reflexivity | lia].
      * destruct (Z.ltb_spec target (i + 1)); [lia|].
        replace (Z.to_nat (target - i)) with (S (Z.to_nat (target - (i + 1)))) by lia.
        reflexivity.
Qed.

Lemma walkPath_in_slice (elem : gotype) (elems : list value) (i : Z) (rest : list Z) :
  walkPath (i :: rest) (VSlice elem elems)
  = if (0 <=? i) && (i <? Z.of_nat (List.length elems))
    then walkPath rest (nth (Z.to_nat i) elems VNil)
    else VNil.
Proof.
  rewrite walkPath_step, dispatch_first_with. unfold children. simpl Indirect. cbv iota.
  rewrite first_with_indexed, Z.sub_0_r.
  destruct (Z.ltb_spec i 0) as [Hneg|Hpos].
  - replace (0 <=? i) with false by (symmetry; apply Z.leb_gt; lia). reflexivity.
  - replace (0 <=? i) with true by (symmetry; apply Z.leb_le; lia). simpl.
    destruct (Z.ltb_spec i (Z.of_nat (List.length elems))) as [Hin|Hout].
    + destruct (nth_error elems (Z.to_nat i)) as [e|] eqn:E.
      * now rewrite (nth_error_nth _ _ VNil E).
      * apply nth_error_None in E. lia.
    + replace (nth_error elems (Z.to_nat i)) with (@None value); [reflexivity|].
      symmetry. apply nth_error_None. lia.
Qed.




(* ================================================================== *)
(** ** Symbol resolution and the links to types *)

Section Links.
Variable TrimElem : string -> Z -> string.
Variable CountElem : string -> Z.
Variable pathJoin : string -> string -> string.

(** C3, as the code has it.  For every symbol path that is not fully
    qualified, urlToType panics with its message, whatever the resolver
    and the files: the resolver's answer is never used, no link is
    guessed; and nothing is returned to the caller, the panic unwinds
    through it. *)
Theorem urlToType_bare_path_panics
        (ResolveFile : string -> list Util.File -> option Util.File)
        (f : tmplFuncs) (symbolPath : string) :
  Util.IsFullyQualified symbolPath = false ->
  urlToType ResolveFile TrimElem CountElem pathJoin f symbolPath
  = Panic (PanicMsg "urlToType: not a fully-qualified symbol path").
Proof.
  intros Hbare. unfold urlToType. now rewrite Hbare.
Qed.

Lemma no_match_no_result
      (step4 : Util.Step4) (segs : list string) (files : list Util.File) :
  (forall file, In file files ->
                Util.packageMatches segs file = true ->
                Util.resolveIn segs file = None) ->
  Util.resolveSegments step4 segs files = (None, None).
Proof.
  induction files as [|file rest IH]; intros Hnone; simpl.
  - reflexivity.
  - assert (Hrest : Util.resolveSegments step4 segs rest = (None, None))
      by (apply IH; intros g Hg; apply Hnone; now right).
    destruct (Util.packageMatches segs file) eqn:Hpkg; [|exact Hrest].
    rewrite (Hnone file (or_introl eq_refl) Hpkg).
    destruct step4; [exact Hrest | reflexivity].
Qed.

(** C7.  For every symbol path that matches no loaded file (no file has
    a package that is a prefix of the path and resolves the rest of it),
    Resolve returns no Definition and no File, as an ordinary result,
    under either reading of its step 4; the callers turn the missing file
    into the empty string: typeURL always, urlToType on the fully
    qualified paths it admits, with any ResolveFile that answers with the
    file of Resolve. *)
Theorem Resolve_no_match (step4 : Util.Step4) (f : tmplFuncs) (symbolPath : string) :
  (forall file, In file (protoFile f) ->
                Util.packageMatches (Util.normalize symbolPath) file = true ->
                Util.resolveIn (Util.normalize symbolPath) file = None) ->
  Util.Resolve step4 symbolPath (protoFile f) = (None, None)
  /\ typeURL (Util.Resolve step4) TrimElem CountElem pathJoin f symbolPath
     = Ret EmptyString
  /\ forall ResolveFile,
       ResolveFile symbolPath (protoFile f)
       = snd (Util.Resolve step4 symbolPath (protoFile f)) ->
       Util.IsFullyQualified symbolPath = true ->
       urlToType ResolveFile TrimElem CountElem pathJoin f symbolPath = Ret EmptyString.
Proof.
  intros Hnone.
  assert (H : Util.Resolve step4 symbolPath (protoFile f) = (None, None))
    by (now apply no_match_no_result).
  repeat split.
  - exact H.
  - unfold typeURL. now rewrite H.
  - intros ResolveFile Hfile Hfq. unfold urlToType.
    now rewrite Hfq, Hfile, H.
Qed.
End Links.

Lemma urlToType_bare_path_panics_witness :
  urlToType Sample.noFile Sample.trimNone Sample.countNone Sample.joinSlash
            (Sample.funcs Sample.building [Sample.buildingFile])
            "world.building.Options"
  = Panic (PanicMsg "urlToType: not a fully-qualified symbol path").
Proof.
  apply (urlToType_bare_path_panics Sample.trimNone Sample.countNone Sample.joinSlash).
  reflexivity.
Defined.

(** C3 fails as stated.  On the bare path world.building.Options the call
    of urlToType does not return: it panics, also when the files declare
    the symbol. *)
Lemma urlToType_bare_path_does_not_return :
  Util.IsFullyQualified "world.building.Options" = false
  /\ returns (urlToType Sample.fileOfResolve Sample.trimNone Sample.countNone
                        Sample.joinSlash
                        (Sample.funcs Sample.building [Sample.buildingFile])
                        "world.building.Options") = false.
Proof. split; reflexivity. Qed.

Lemma Resolve_no_match_witness :
  Util.Resolve Util.StopsAtFirstMatch ".world.nothing.Options"
               (protoFile (Sample.funcs Sample.building
                             [Sample.humanFile; Sample.buildingFile]))
  = (None, None)
  /\ Util.Resolve Util.TriesLaterFiles ".world.nothing.Options"
                  (protoFile (Sample.funcs Sample.building
                                [Sample.humanFile; Sample.buildingFile]))
     = (None, None).
Proof.
  split;
    [ apply (Resolve_no_match Sample.trimNone Sample.countNone Sample.joinSlash
               Util.StopsAtFirstMatch
               (Sample.funcs Sample.building [Sample.humanFile; Sample.buildingFile])
               ".world.nothing.Options")
    | apply (Resolve_no_match Sample.trimNone Sample.countNone Sample.joinSlash
               Util.TriesLaterFiles
               (Sample.funcs Sample.building [Sample.humanFile; Sample.buildingFile])
               ".world.nothing.Options") ];
    intros file [<- | [<- | []]]; vm_compute; discriminate.
Defined.

(** Under the reading of step 4 that tries the later files, Resolve
    returns the first file whose package matches and whose remaining
    segments resolve. *)
Lemma Resolve_tries_later_files (symbolPath : string) (files : list Util.File) :
  Util.Resolve Util.TriesLaterFiles symbolPath files
  = firstResolving (Util.normalize symbolPath) files.
Proof.
  unfold Util.Resolve.
  induction files as [|f rest IH]; simpl; [reflexivity|].
  destruct (Util.packageMatches (Util.normalize symbolPath) f); [|exact IH].
  destruct (Util.resolveIn (Util.normalize symbolPath) f); [reflexivity | exact IH].
Qed.

(** Where the two readings of step 4 part: of two files of package
    world.building the second alone declares Options. *)
Example Resolve_readings_differ :
  Util.Resolve Util.TriesLaterFiles ".world.building.Options"
               [Sample.buildingExtras; Sample.buildingFile]
  = (Some Sample.Options, Some Sample.buildingFile)
  /\ Util.Resolve Util.StopsAtFirstMatch ".world.building.Options"
                  [Sample.buildingExtras; Sample.buildingFile]
     = (None, None).
Proof. split; reflexivity. Qed.

(** The expectations of TestResolverFQ, on files of distinct packages,
    under either reading. *)
Example TestResolverFQ_building (step4 : Util.Step4) :
  option_map Util.name
    (snd (Util.Resolve step4 ".world.building.Options"
                       [Sample.humanFile; Sample.buildingFile]))
  = Some "world/region/building.proto".
Proof. destruct step4; reflexivity. Qed.

Example TestResolverFQ_human (step4 : Util.Step4) :
  option_map Util.name
    (snd (Util.Resolve step4 ".world.human.Options"
                       [Sample.humanFile; Sample.buildingFile]))
  = Some "world/region/human.proto".
Proof. destruct step4; reflexivity. Qed.

(** The cases of TestStripExt. *)
Example TestStripExt :
  stripExt "hello.txt" = "hello"
  /\ stripExt "no_ext" = "no_ext"
  /\ stripExt "long.extension" = "long".
Proof. repeat split. Qed.

(* ================================================================== *)
(** ** Strings: facts the properties below rest on *)

Lemma append_empty_r (s : string) : (s ++ "")%string = s.
Proof. induction s; simpl; congruence. Qed.

Lemma append_assoc (s t u : string) : ((s ++ t) ++ u)%string = (s ++ t ++ u)%string.
Proof. induction s; simpl; congruence. Qed.

Lemma length_append (s t : string) :
  String.length (s ++ t) = (String.length s + String.length t)%nat.
Proof. induction s; simpl; congruence. Qed.

Lemma substring_whole_prefix (p e : string) :
  substring 0 (String.length p) (p ++ e) = p.
Proof.
  induction p as [|c p IH]; simpl.
  - now destruct e.
  - now rewrite IH.
Qed.

Lemma containsByte_append (c : ascii) (s t : string) :
  containsByte c (s ++ t) = containsByte c s || containsByte c t.
Proof.
  induction s as [|d s IH]; simpl; [reflexivity|].
  now rewrite IH, orb_assoc.
Qed.

(** The extension is an end of the string. *)
Lemma Ext_is_suffix (s : string) : exists p, s = (p ++ Ext s)%string.
Proof.
  induction s as [|c rest [p IH]]; simpl.
  - now exists EmptyString.
  - destruct (Ext rest) as [|d later] eqn:E.
    + destruct (Ascii.eqb c "." && negb (containsByte "/" rest)).
      * now exists EmptyString.
      * exists (String c rest). now rewrite append_empty_r.
    + exists (String c p). simpl. now rewrite <- IH.
Qed.

(** stripExt gives the part in front of the extension. *)
Lemma stripExt_front (s p : string) :
  s = (p ++ Ext s)%string -> stripExt s = p.
Proof.
  intros Hs. unfold stripExt.
  destruct (Ext s) as [|d e] eqn:E.
  - simpl. now rewrite append_empty_r in Hs.
  - replace (0 <? Z.of_nat (String.length (String d e))) with true
      by (symmetry; apply Z.ltb_lt; simpl; lia).
    rewrite Hs at 1 2. rewrite length_append.
    replace (String.length p + String.length (String d e) - String.length (String d e))%nat
      with (String.length p) by lia.
    apply substring_whole_prefix.
Qed.

Lemma no_dot_without_ext (r : string) :
  Ext r = EmptyString -> containsByte "/" r = false -> containsByte "." r = false.
Proof.
  induction r as [|d r IH]; simpl; [reflexivity|].
  destruct (Ext r) as [|x later] eqn:E; [|discriminate].
  intros Hext Hslash. apply orb_false_iff in Hslash as [_ Hslash].
  rewrite Hslash in Hext. simpl in Hext. rewrite andb_true_r in Hext.
  destruct (Ascii.eqb d ".") eqn:Hd; [discriminate|].
  simpl. now apply IH.
Qed.

Lemma Ext_below_slash (dir base : string) :
  containsByte "/" base = false ->
  Ext (dir ++ String "/" base) = Ext base.
Proof.
  intros Hbase. induction dir as [|c dir IH]; simpl.
  - now destruct (Ext base).
  - rewrite IH. destruct (Ext base); [|reflexivity].
    rewrite containsByte_append. simpl.
    now rewrite orb_true_r, andb_false_r.
Qed.

(* ================================================================== *)
(** ** Further properties: names, extensions and type names *)

(** X1.  stripExt removes exactly the extension: the stripped name followed
    by the extension is the name again; and the extension is empty or a
    dot followed by bytes that are neither a dot nor a slash. *)
Theorem stripExt_then_Ext (s : string) :
  (stripExt s ++ Ext s)%string = s
  /\ (Ext s = EmptyString
      \/ exists e, Ext s = String "." e
                   /\ containsByte "." e = false
                   /\ containsByte "/" e = false).
Proof.
  split.
  - destruct (Ext_is_suffix s) as [p Hp].
    rewrite (stripExt_front _ _ Hp). now symmetry.
  - induction s as [|c rest IH]; simpl; [now left|].
    destruct (Ext rest) as [|d later] eqn:E.
    + destruct (Ascii.eqb c ".") eqn:Hc; simpl; [|now left].
      destruct (containsByte "/" rest) eqn:Hslash; simpl; [now left|].
      right. exists rest. apply Ascii.eqb_eq in Hc. subst c.
      repeat split; [now apply no_dot_without_ext | exact Hslash].
    + right. destruct IH as [Hnil | IH]; [discriminate | exact IH].
Qed.

(** X2.  stripExt leaves the directories of a path alone: the dots in
    front of the last slash are not extensions, only the last element is
    stripped. *)
Theorem stripExt_last_element (dir base : string) :
  containsByte "/" base = false ->
  stripExt (dir ++ String "/" base) = (dir ++ String "/" (stripExt base))%string.
Proof.
  intros Hbase. apply stripExt_front.
  rewrite (Ext_below_slash _ _ Hbase), append_assoc. simpl.
  destruct (Ext_is_suffix base) as [p Hp].
  rewrite (stripExt_front _ _ Hp). now rewrite <- Hp.
Qed.

Lemma stripExt_last_element_witness :
  stripExt ("world.v2/region" ++ String "/" "building.proto")
  = ("world.v2/region" ++ String "/" (stripExt "building.proto"))%string.
Proof.
  apply (stripExt_last_element "world.v2/region" "building.proto"). reflexivity.
Defined.

(** The pieces of a split end with a piece free of the separator: the
    whole string when there is one piece, what follows the last separator
    when there are more. *)
Lemma Split_ends (sep : ascii) (s : string) :
  exists init piece,
    GoStrings.Split sep s = init ++ [piece]
    /\ containsByte sep piece = false
    /\ ((init = [] /\ s = piece)
        \/ (init <> [] /\ exists p, s = (p ++ String sep piece)%string)).
Proof.
  induction s as [|c rest (init & piece & Hsplit & Hfree & Hshape)]; simpl.
  - exists [], EmptyString. repeat split. now left.
  - destruct (Ascii.eqb c sep) eqn:Hc.
    + apply Ascii.eqb_eq in Hc. subst c.
      exists (EmptyString :: init), piece. rewrite Hsplit. repeat split; [exact Hfree|].
      right. split; [discriminate|].
      destruct Hshape as [[_ ->] | [_ [p ->]]].
      * now exists EmptyString.
      * now exists (String sep p).
    + rewrite Hsplit. destruct Hshape as [[-> ->] | [Hinit [p ->]]].
      * exists [], (String c piece). simpl. repeat split.
        -- now rewrite Hc, Hfree.
        -- now left.
      * destruct init as [|first init]; [now elim Hinit|]. simpl.
        exists (String c first :: init), piece. repeat split; [exact Hfree|].
        right. split; [discriminate|]. now exists (String c p).
Qed.

(** X3.  cleanType never panics: it returns the part of the path after
    its last dot, the whole path when it has no dot; the result holds no
    dot. *)
Theorem cleanType_last_piece (path : string) :
  exists base,
    cleanType path = Ret base
    /\ containsByte "." base = false
    /\ ((path = base)
        \/ exists front, path = (front ++ String "." base)%string).
Proof.
  destruct (Split_ends "." path) as (init & piece & Hsplit & Hfree & Hshape).
  exists piece. repeat split.
  - unfold cleanType. rewrite Hsplit, length_app. simpl.
    replace (List.length init + 1 - 1)%nat with (List.length init) by lia.
    rewrite nth_error_app2 by lia. now rewrite Nat.sub_diag.
  - exact Hfree.
  - destruct Hshape as [[_ H] | [_ H]]; [now left | now right].
Qed.

(* ================================================================== *)
(** ** Further properties: maps built by assignment *)

Lemma bindAll_lookup {A} (kvs : list (string * A)) :
  forall (m : gomap A) (k : string),
    bindAll kvs m k
    = match lastBinding k kvs with
      | Some a => Some a
      | None => m k
      end.
Proof.
  induction kvs as [|[k' a] rest IH]; intros m k; simpl; [reflexivity|].
  rewrite IH. destruct (lastBinding k rest); [reflexivity|].
  unfold mapSet. now destruct (String.eqb k k').
Qed.

Lemma dictLoop_bindings (kvs : list (string * value)) :
  forall rest m, dictLoop (asPairs kvs ++ rest) m = dictLoop rest (bindAll kvs m).
Proof.
  induction kvs as [|[k v] kvs IH]; intros rest m; simpl; [reflexivity|].
  apply IH.
Qed.

Lemma dictLoop_not_string (key v : value) (rest : list value) (m : gomap value) :
  isString key = false -> dictLoop (key :: v :: rest) m = DictPanic key.
Proof.
  unfold isString. simpl. intros Hkey.
  repeat match type of Hkey with
         | context [match ?x with _ => _ end] =>
             destruct x; try discriminate Hkey; try reflexivity
         end.
Qed.

Lemma length_asPairs (kvs : list (string * value)) :
  List.length (asPairs kvs) = (2 * List.length kvs)%nat.
Proof. induction kvs as [|[k v] kvs IH]; simpl; lia. Qed.

(** X4.  Given keys with their values, dict returns a map and no error;
    the map gives for each key the value of its last occurrence among the
    arguments, and nothing for a string that is no key. *)
Theorem dict_last_binding (kvs : list (string * value)) :
  exists m,
    dict (asPairs kvs) = DictMap m
    /\ forall k, m k = lastBinding k kvs.
Proof.
  exists (bindAll kvs emptyMap). split.
  - unfold dict. rewrite length_asPairs.
    replace (Z.of_nat (2 * List.length kvs) mod 2 =? 0) with true.
    + simpl. rewrite <- (app_nil_r (asPairs kvs)), dictLoop_bindings. reflexivity.
    + symmetry. apply Z.eqb_eq.
      rewrite Nat2Z.inj_mul, Z.mul_comm. apply Z.mod_mul. lia.
  - intros k. rewrite bindAll_lookup. now destruct (lastBinding k kvs).
Qed.

(** X5.  The two ways dict fails.  An odd number of arguments gives the
    error "expected pairs" and no panic, whatever the arguments are.  With
    an even number, the first argument in key position that is no string
    makes dict panic with that value, whatever follows it. *)
Theorem dict_failures :
  (forall pairs,
      Z.of_nat (List.length pairs) mod 2 = 1 ->
      dict pairs = DictError "expected pairs")
  /\ (forall kvs key v rest,
        isString key = false ->
        Z.of_nat (List.length rest) mod 2 = 0 ->
        dict (asPairs kvs ++ key :: v :: rest) = DictPanic key).
Proof.
  split.
  - intros pairs Hodd. unfold dict. now rewrite Hodd.
  - intros kvs key v rest Hkey Heven. unfold dict.
    rewrite length_app, length_asPairs. simpl List.length.
    replace (Z.of_nat (2 * List.length kvs + S (S (List.length rest))) mod 2 =? 0)
      with true.
    + simpl. rewrite dictLoop_bindings. now apply dictLoop_not_string.
    + symmetry. apply Z.eqb_eq.
      replace (Z.of_nat (2 * List.length kvs + S (S (List.length rest))))
        with (Z.of_nat (List.length rest) + (Z.of_nat (List.length kvs) + 1) * 2) by lia.
      now rewrite Z.mod_add by lia.
Qed.

Lemma dict_failures_witness :
  dict [VString "name"] = DictError "expected pairs"
  /\ dict (asPairs [("name", VNil)] ++ [VScalar (TBasic "int") (SInt 7); VNil])
     = DictPanic (VScalar (TBasic "int") (SInt 7)).
Proof.
  split.
  - apply (proj1 dict_failures). reflexivity.
  - apply (proj2 dict_failures [("name", VNil)] _ VNil []); reflexivity.
Defined.

Lemma Split_not_empty (sep : ascii) (s : string) : GoStrings.Split sep s <> [].
Proof.
  destruct (Split_ends sep s) as (init & piece & -> & _).
  now destruct init.
Qed.

(** A string without the separator is its own single piece; in front of a
    separator it is the first piece. *)
Lemma Split_first (sep : ascii) (a : string) :
  containsByte sep a = false ->
  GoStrings.Split sep a = [a]
  /\ forall b, GoStrings.Split sep (a ++ String sep b) = a :: GoStrings.Split sep b.
Proof.
  induction a as [|c a IH]; simpl; intros Hfree.
  - split; [reflexivity|]. intros b. now rewrite Ascii.eqb_refl.
  - apply orb_false_iff in Hfree as [Hc Hfree].
    destruct (IH Hfree) as [Hone Hmore]. rewrite Hc. split.
    + now rewrite Hone.
    + intros b. now rewrite Hmore.
Qed.

Section ParamProperties.
Variable TrimSpace : string -> string.

Lemma paramsLoop_bindings (items : list string) :
  forall m, paramsLoop TrimSpace items m = bindAll (map (paramOf TrimSpace) items) m.
Proof.
  induction items as [|p rest IH]; intros m; simpl; [reflexivity|].
  destruct (paramOf TrimSpace p) as [key value]. apply IH.
Qed.

(** X6.  paramsToMap binds each key to the value of the last item that
    names it, later items replacing earlier ones, and holds no other key;
    it is never empty: even the empty parameter string has one item. *)
Theorem paramsToMap_last_item (parameter : string) :
  let items := GoStrings.Split "," parameter in
  (forall k,
      paramsToMap TrimSpace parameter k
      = lastBinding k (map (paramOf TrimSpace) items))
  /\ exists key value, paramsToMap TrimSpace parameter key = Some value.
Proof.
  intros items.
  assert (Hall : forall k, paramsToMap TrimSpace parameter k
                           = lastBinding k (map (paramOf TrimSpace) items)).
  { intros k. unfold paramsToMap. fold items.
    rewrite paramsLoop_bindings, bindAll_lookup.
    now destruct (lastBinding k (map (paramOf TrimSpace) items)). }
  split; [exact Hall|].
  destruct (Split_ends "," parameter) as (init & piece & Hsplit & _).
  exists (fst (paramOf TrimSpace piece)), (snd (paramOf TrimSpace piece)).
  rewrite Hall. subst items. rewrite Hsplit, map_app. simpl.
  clear. induction init as [|p init IH]; simpl.
  - destruct (paramOf TrimSpace piece) as [key value]. simpl. now rewrite String.eqb_refl.
  - destruct (paramOf TrimSpace p) as [key value]. now rewrite IH.
Qed.

(** X7.  What an item binds: its key is the trimmed text in front of the
    first "="; its value the trimmed text between the first "=" and the
    second, what follows a second "=" being dropped; an item without "="
    has the empty value. *)
Theorem paramOf_key_value (key value : string) :
  containsByte "=" key = false ->
  containsByte "=" value = false ->
  paramOf TrimSpace key = (TrimSpace key, EmptyString)
  /\ paramOf TrimSpace (key ++ String "=" value) = (TrimSpace key, TrimSpace value)
  /\ forall rest,
       paramOf TrimSpace (key ++ String "=" (value ++ String "=" rest))
       = (TrimSpace key, TrimSpace value).
Proof.
  intros Hkey Hvalue.
  destruct (Split_first "=" key Hkey) as [Hone Hmore].
  destruct (Split_first "=" value Hvalue) as [Hone' Hmore'].
  unfold paramOf. repeat split.
  - now rewrite Hone.
  - now rewrite Hmore, Hone'.
  - intros rest. rewrite Hmore, Hmore'. cbn [nth].
    replace (1 <? Z.of_nat (List.length (key :: value :: GoStrings.Split "=" rest)))
      with true by (symmetry; apply Z.ltb_lt; cbn [List.length]; lia).
    reflexivity.
Qed.
End ParamProperties.

Lemma paramOf_key_value_witness :
  paramOf (fun s => s) ("conf" ++ String "=" ("a.json" ++ String "=" "x"))
  = ("conf", "a.json").
Proof.
  apply (proj2 (proj2 (paramOf_key_value (fun s => s) "conf" "a.json" eq_refl eq_refl))).
Defined.

(* ================================================================== *)
(** ** Further properties: the generator *)

Section GeneratorProperties.
Variable genTarget : OperationConfig -> ResponseFile + string.

Lemma generateLoop_results (operations : list OperationConfig) :
  forall files errs,
    generateLoop genTarget operations files errs
    = (files ++ filesOf (map genTarget operations),
       (errs ++ errorsOf (map genTarget operations))%string).
Proof.
  induction operations as [|op rest IH]; intros files errs; simpl.
  - now rewrite app_nil_r, append_empty_r.
  - destruct (genTarget op) as [f|err]; rewrite IH.
    + now rewrite <- app_assoc.
    + now rewrite !append_assoc.
Qed.

Lemma errorsOf_empty (results : list (ResponseFile + string)) :
  existsb failed results = false ->
  errorsOf results = EmptyString
  /\ List.length (filesOf results) = List.length results.
Proof.
  induction results as [|[f|err] rest IH]; simpl; intros H.
  - now split.
  - destruct (IH H) as [-> ->]. now split.
  - discriminate.
Qed.

Lemma errorsOf_not_empty (results : list (ResponseFile + string)) :
  existsb failed results = true ->
  (0 <? Z.of_nat (String.length (errorsOf results))) = true.
Proof.
  induction results as [|[f|err] rest IH]; simpl; intros H.
  - discriminate.
  - now apply IH.
  - apply Z.ltb_lt. rewrite length_append. simpl. lia.
Qed.

(** X8.  Generate is all or nothing.  When every operation succeeds the
    response holds one file for each operation, in the operations' order,
    and no error.  When some operation fails the response holds no file
    at all, not even those of the operations that succeeded, and its
    error is the failures' messages, each ended by a newline, in order. *)
Theorem Generate_all_or_nothing (operations : list OperationConfig) :
  let results := map genTarget operations in
  Generate genTarget operations
  = (if existsb failed results
     then {| File := []; Error := Some (errorsOf results) |}
     else {| File := filesOf results; Error := None |})
  /\ (existsb failed results = false ->
      List.length (filesOf results) = List.length operations).
Proof.
  intros results. unfold Generate. rewrite generateLoop_results. simpl. fold results.
  destruct (existsb failed results) eqn:Hfail.
  - rewrite (errorsOf_not_empty _ Hfail). split; [reflexivity | discriminate].
  - destruct (errorsOf_empty _ Hfail) as [-> Hlen]. simpl. split; [reflexivity|].
    intros _. rewrite Hlen. apply length_map.
Qed.
End GeneratorProperties.

Lemma Generate_all_or_nothing_witness :
  List.length (filesOf (map GeneratorSamples.targetOrError GeneratorSamples.twoOperations))
  = List.length GeneratorSamples.twoOperations.
Proof.
  apply (proj2 (Generate_all_or_nothing GeneratorSamples.targetOrError
                  GeneratorSamples.twoOperations)).
  reflexivity.
Defined.

Lemma getProtoFileFromTarget_found (target : string) (protoFiles : list value) :
  let v := getProtoFileFromTarget target protoFiles in
  (v = nilFile /\ forall w, In w protoFiles -> GetName w <> target)
  \/ (In v protoFiles /\ GetName v = target).
Proof.
  induction protoFiles as [|w rest IH]; simpl.
  - left. split; [reflexivity | intros w []].
  - destruct (String.eqb_spec target (GetName w)) as [Heq|Hne].
    + right. split; [now left | now symmetry].
    + destruct IH as [[Hnil Hnone] | [Hin Hname]].
      * left. split; [exact Hnil|]. intros u [<-|Hu]; [congruence | now apply Hnone].
      * right. split; [now right | exact Hname].
Qed.

(** X9.  For a target that is not empty, genTarget goes on only with an
    input file of that name, which is no nil pointer; when no input file
    has the name it returns its error, whose message quotes the target. *)
Theorem genTargetFile_named (target : string) (protoFiles : list value) :
  target <> EmptyString ->
  match genTargetFile target protoFiles with
  | inl v => isNilPtr v = false /\ In v protoFiles /\ GetName v = target
  | inr err =>
      err = NoInputProtoFile target
      /\ forall w, In w protoFiles -> GetName w <> target
  end.
Proof.
  intros Htarget. unfold genTargetFile.
  apply String.eqb_neq in Htarget. rewrite Htarget. simpl.
  pose proof (getProtoFileFromTarget_found target protoFiles) as H. simpl in H.
  destruct (isNilPtr (getProtoFileFromTarget target protoFiles)) eqn:Hnil.
  - split; [reflexivity|].
    destruct H as [[_ Hnone] | [_ Hname]]; [exact Hnone|].
    exfalso. destruct (getProtoFileFromTarget target protoFiles)
      as [| | |e [cell|]|]; try discriminate.
    apply String.eqb_neq in Htarget. apply Htarget. now rewrite <- Hname.
  - destruct H as [[Heq _] | [Hin Hname]].
    + rewrite Heq in Hnil. discriminate.
    + now repeat split.
Qed.

Lemma genTargetFile_named_witness :
  (genTargetFile "world/region/building.proto" [Sample.bare; Sample.building]
   = inl Sample.building
   /\ isNilPtr Sample.building = false)
  /\ (genTargetFile "missing.proto" [Sample.bare; Sample.building]
      = inr (NoInputProtoFile "missing.proto")
      /\ forall w, In w [Sample.bare; Sample.building] -> GetName w <> "missing.proto").
Proof.
  split.
  - split; [reflexivity|].
    pose proof (genTargetFile_named "world/region/building.proto"
                  [Sample.bare; Sample.building]) as H.
    simpl in H. apply H. discriminate.
  - split; [reflexivity|].
    pose proof (genTargetFile_named "missing.proto"
                  [Sample.bare; Sample.building]) as H.
    simpl in H. apply H. discriminate.
Defined.

(* ================================================================== *)
(** ** Further properties: the walk *)

Lemma walkPath_from_nil (path : list Z) : walkPath path VNil = VNil.
Proof. destruct path; reflexivity. Qed.

(** X10.  Walks compose: walking a path and then a second path from the
    node found is walking the two paths joined; from no node every walk
    gives no node. *)
Theorem walkPath_app (p q : list Z) (fd : value) :
  walkPath (p ++ q) fd = walkPath q (walkPath p fd)
  /\ walkPath q VNil = VNil.
Proof.
  split; [|apply walkPath_from_nil].
  revert fd. induction p as [|target p IH]; intros fd.
  - reflexivity.
  - simpl app. rewrite !walkPath_step.
    destruct (dispatch fd target) as [child|]; [apply IH|].
    now rewrite walkPath_from_nil.
Qed.

(** X11.  In a slice a step of the path is an index from zero: within the
    bounds the walk goes on from the element at the index; a negative
    index or one past the end gives no node, and no panic. *)
Theorem walkPath_index (elem : gotype) (elems : list value) (i : Z) (rest : list Z) :
  walkPath (i :: rest) (VSlice elem elems)
  = if (0 <=? i) && (i <? Z.of_nat (List.length elems))
    then walkPath rest (nth (Z.to_nat i) elems VNil)
    else VNil.
Proof. apply walkPath_in_slice. Qed.

Lemma tagged_cons (f : sfield value) (rest : list (sfield value)) :
  tagged (f :: rest)
  = match tagNumberOf (ftag f) with
    | Some tagID => (tagID, fval f) :: tagged rest
    | None => tagged rest
    end.
Proof.
  simpl. unfold tagNumberOf.
  now destruct (Z.of_nat (List.length (GoStrings.Split "," (ftag f))) <? 2).
Qed.

(** X12.  In a struct a step of the path selects by struct tag: the child
    found is the content of the first field whose tag carries the number.
    A field without protobuf tag, or whose tag carries no number, is
    never reached. *)
Theorem dispatch_by_tag (pkgPath name : string) (fields : list (sfield value)) (target : Z) :
  match dispatch (VStruct pkgPath name fields) target with
  | Some child =>
      exists before f after,
        fields = before ++ f :: after
        /\ child = fval f
        /\ tagNumberOf (ftag f) = Some target
        /\ Forall (fun g => tagNumberOf (ftag g) <> Some target) before
  | None => Forall (fun g => tagNumberOf (ftag g) <> Some target) fields
  end.
Proof.
  rewrite dispatch_first_with. unfold children. simpl Indirect. cbv iota.
  induction fields as [|f rest IH]; [constructor|].
  rewrite tagged_cons.
  destruct (tagNumberOf (ftag f)) as [tagID|] eqn:Htag.
  - simpl. destruct (Z.eqb_spec tagID target) as [->|Hne].
    + exists [], f, rest. repeat split; [exact Htag | constructor].
    + destruct (first_with target (tagged rest)) as [child|].
      * destruct IH as (before & g & after & -> & Hchild & Hg & Hbefore).
        exists (f :: before), g, after. repeat split; try assumption.
        constructor; [|exact Hbefore]. rewrite Htag. congruence.
      * constructor; [|exact IH]. rewrite Htag. congruence.
  - destruct (first_with target (tagged rest)) as [child|].
    + destruct IH as (before & g & after & -> & Hchild & Hg & Hbefore).
      exists (f :: before), g, after. repeat split; try assumption.
      constructor; [|exact Hbefore]. rewrite Htag. discriminate.
    + constructor; [|exact IH]. rewrite Htag. discriminate.
Qed.

(* ================================================================== *)
(** ** Further properties: location *)

Lemma appendLocations_from_records (fd : value) (locs : list value) :
  forall cache built,
    appendLocations fd locs cache = Ret built ->
    forall i, In i built -> In i cache \/ In (L i) locs.
Proof.
  induction locs as [|loc rest IH]; intros cache built; simpl.
  - intros H i Hi. inversion H. subst. now left.
  - destruct (selector loc "Path") as [ps|]; simpl; [|discriminate].
    destruct (elements ps) as [es|]; simpl; [|discriminate].
    destruct (int32s es) as [p|]; simpl; [|discriminate].
    intros H i Hi. destruct (IH _ _ H i Hi) as [Hc | Hl]; [|right; now right].
    apply in_app_or in Hc as [Hc | [<- | []]]; [now left|]. right. now left.
Qed.

Lemma findCachedItem_answer (cache : list cacheItem) (x r : value) :
  findCachedItem cache x = Ret r ->
  r = nilLocation \/ exists i, In i cache /\ r = L i.
Proof.
  induction cache as [|i rest IH]; simpl.
  - intros H. inversion H. now left.
  - destruct (iface_eq (V i) x) as [[|]|]; simpl; [| |discriminate].
    + intros H. inversion H. right. exists i. split; [now left | reflexivity].
    + intros H. destruct (IH H) as [Hnil | (j & Hj & Hr)]; [now left|].
      right. exists j. split; [now right | exact Hr].
Qed.

(** X13.  What location returns on a file is the nil location or one of
    the location records of that file, the pointer itself: nothing is
    made up and no record of another file is returned. *)
Theorem location_answers_a_record
        (f f' : tmplFuncs) (locs : list value) (x r : value) :
  locCache f = [] ->
  sourceLocations (protoFileDescriptor f) = Ret locs ->
  location f x = Ret (r, f') ->
  r = nilLocation \/ In r locs.
Proof.
  intros Hcache Hlocs Hcall.
  unfold location in Hcall. rewrite (buildLocCache_first _ _ Hcache Hlocs) in Hcall.
  destruct (checkDescriptorType x); simpl in Hcall; [|discriminate].
  destruct (appendLocations (protoFileDescriptor f) locs []) as [cache|] eqn:Hbuild;
    simpl in Hcall; [|discriminate].
  destruct (findCachedItem cache x) as [found|] eqn:Hfind; simpl in Hcall; [|discriminate].
  inversion Hcall. subst found f'.
  destruct (findCachedItem_answer _ _ _ Hfind) as [Hnil | (i & Hi & ->)]; [now left|].
  right. destruct (appendLocations_from_records _ _ _ _ Hbuild i Hi) as [[] | H].
  exact H.
Qed.

Lemma location_answers_a_record_witness :
  Sample.locHeight = nilLocation
  \/ In Sample.locHeight
        [Sample.locOptions; Sample.locHeight; Sample.locUnknown; Sample.locOptionsAgain].
Proof.
  apply (location_answers_a_record (Sample.funcs Sample.building [])
           (set_locCache (Sample.funcs Sample.building [])
              (itemsFor Sample.building
                 [Sample.locOptions; Sample.locHeight; Sample.locUnknown;
                  Sample.locOptionsAgain]
                 [[4; 0]; [4; 0; 2; 0]; [99]; [4; 0]]))
           _ Sample.height).
  - reflexivity.
  - reflexivity.
  - vm_compute. reflexivity.
Defined.

(** X14.  The cache is built by the first call that returns and never
    again: the receiver a call of location leaves is the receiver with its
    cache built, and every later call on it leaves it as it is. *)
Theorem location_builds_once (f f1 : tmplFuncs) (x r : value) :
  location f x = Ret (r, f1) ->
  buildLocCache f = Ret f1
  /\ protoFileDescriptor f1 = protoFileDescriptor f
  /\ forall y r' f2, location f1 y = Ret (r', f2) -> f2 = f1.
Proof.
  intros Hcall.
  assert (Hbuild : buildLocCache f = Ret f1).
  { unfold location in Hcall.
    destruct (checkDescriptorType x); simpl in Hcall; [|discriminate].
    destruct (buildLocCache f) as [g|]; simpl in Hcall; [|discriminate].
    destruct (findCachedItem (locCache g) x); simpl in Hcall; [|discriminate].
    now inversion Hcall. }
  repeat split.
  - exact Hbuild.
  - unfold buildLocCache in Hbuild. destruct (locCache f).
    + destruct (sourceLocations (protoFileDescriptor f)) as [locs|];
        simpl in Hbuild; [|discriminate].
      destruct (appendLocations (protoFileDescriptor f) locs []); simpl in Hbuild;
        [|discriminate].
      now inversion Hbuild.
    + now inversion Hbuild.
  - intros y r' f2 Hlater. rewrite (location_built _ _ _ Hbuild) in Hlater.
    destruct (checkDescriptorType y); simpl in Hlater; [|discriminate].
    destruct (findCachedItem (locCache f1) y); simpl in Hlater; [|discriminate].
    now inversion Hlater.
Qed.

Lemma location_builds_once_witness :
  exists f1,
    buildLocCache (Sample.funcs Sample.building []) = Ret f1
    /\ List.length (locCache f1) = 4%nat.
Proof.
  eexists. split.
  - apply (location_builds_once (Sample.funcs Sample.building []) _
             Sample.height Sample.locHeight).
    vm_compute. reflexivity.
  - reflexivity.
Defined.

(** X15.  What location rejects, before it reads the file or the cache
    and so whatever the receiver: the nil interface and every nil pointer
    (an unset message passed from a template) by the panic of
    reflect.Value.Type on the zero Value; a value whose type, behind one
    pointer, is declared outside the descriptor package by its own panic
    naming the package path.  Every other value passes the check. *)
Theorem location_rejects (f : tmplFuncs) :
  location f VNil = Panic ZeroValueType
  /\ (forall elem, location f (VPtr elem None) = Panic ZeroValueType)
  /\ (forall x t,
        IndirectType x = Ret t ->
        acceptedPkgPath (PkgPath t) = false ->
        location f x = Panic (ExpectedDescriptorType (PkgPath t)))
  /\ (forall x t,
        IndirectType x = Ret t ->
        acceptedPkgPath (PkgPath t) = true ->
        checkDescriptorType x = Ret tt).
Proof.
  repeat split; try reflexivity.
  - intros x t Htype Hpkg. unfold location, checkDescriptorType. rewrite Htype. simpl.
    unfold acceptedPkgPath in Hpkg.
    apply orb_false_iff in Hpkg as [Hpkg Hvendor].
    apply orb_false_iff in Hpkg as [Hempty Hdesc].
    now rewrite Hempty, Hdesc, Hvendor.
  - intros x t Htype Hpkg. unfold checkDescriptorType. rewrite Htype. simpl.
    unfold acceptedPkgPath in Hpkg.
    destruct (String.eqb (PkgPath t) ""); [reflexivity|].
    destruct (String.eqb (PkgPath t) descriptorPkg); [reflexivity|].
    simpl in Hpkg. now rewrite Hpkg.
Qed.

Lemma location_rejects_witness :
  location (Sample.funcs nilFile [])
           (VScalar (TNamed "html/template" "HTML") (SStr "<p>"))
  = Panic (ExpectedDescriptorType "html/template")
  /\ checkDescriptorType
       (VPtr (TNamed "example.com/x/vendor/github.com/golang/protobuf/protoc-gen-go/descriptor"
                     "DescriptorProto")
             (Some (1%positive, VNil)))
     = Ret tt.
Proof.
  split.
  - apply (proj1 (proj2 (proj2 (location_rejects (Sample.funcs nilFile []))))
             _ (TNamed "html/template" "HTML")); reflexivity.
  - apply (proj2 (proj2 (proj2 (location_rejects (Sample.funcs nilFile []))))
             _ (TNamed "example.com/x/vendor/github.com/golang/protobuf/protoc-gen-go/descriptor"
                       "DescriptorProto")); reflexivity.
Defined.

Lemma findCachedItem_other_types (before after : list cacheItem) (x : value) :
  Forall (fun i => same_dynamic_type (V i) x = false) before ->
  findCachedItem (before ++ after) x = findCachedItem after x.
Proof.
  induction 1 as [|i rest Hi _ IH]; simpl; [reflexivity|].
  unfold iface_eq. now rewrite Hi.
Qed.

Lemma items_other_types (fd x : value) (locs : list value) (paths : list (list Z)) :
  Forall (fun p => same_dynamic_type (walkPath p fd) x = false) paths ->
  Forall (fun i => same_dynamic_type (V i) x = false) (itemsFor fd locs paths).
Proof.
  intros Hall. revert locs.
  induction Hall as [|p paths Hp _ IH]; intros [|loc locs]; try constructor.
  - exact Hp.
  - apply IH.
Qed.

(** X16.  A slice is no key for the cache.  When a location record's path
    walks to a repeated field as a whole (a slice), and no earlier record
    walks to a value of that slice type, location of any slice of the
    same type, equal or not, panics in the scan: == on interface values
    holding slices is a runtime error. *)
Theorem location_panics_on_slices
        (f : tmplFuncs) (before after : list value) (loc : value)
        (pathsBefore pathsAfter : list (list Z)) (path : list Z)
        (elem : gotype) (cached asked : list value) :
  let fd := protoFileDescriptor f in
  locCache f = [] ->
  sourceLocations fd = Ret (before ++ loc :: after) ->
  Forall2 (fun l p => LocationPath l = Ret p) before pathsBefore ->
  LocationPath loc = Ret path ->
  Forall2 (fun l p => LocationPath l = Ret p) after pathsAfter ->
  walkPath path fd = VSlice elem cached ->
  Forall (fun p => same_dynamic_type (walkPath p fd) (VSlice elem asked) = false)
         pathsBefore ->
  location f (VSlice elem asked) = Panic UncomparableType.
Proof.
  intros fd Hcache Hlocs Hbefore Hloc Hafter Hwalk Hother.
  unfold location. simpl checkDescriptorType. cbn [bind].
  rewrite (buildLocCache_first _ _ Hcache Hlocs). fold fd.
  assert (Hall : Forall2 (fun l p => LocationPath l = Ret p)
                         (before ++ loc :: after) (pathsBefore ++ path :: pathsAfter))
    by (apply Forall2_app; [assumption | now constructor]).
  rewrite (appendLocations_items _ _ _ Hall). cbn [bind app locCache set_locCache].
  change (loc :: after) with ([loc] ++ after).
  change (path :: pathsAfter) with ([path] ++ pathsAfter).
  rewrite itemsFor_app by (exact (Forall2_length Hbefore)).
  rewrite findCachedItem_other_types by (now apply items_other_types).
  unfold itemsFor. simpl. rewrite Hwalk.
  unfold iface_eq, same_dynamic_type. simpl. now rewrite gotype_eqb_refl.
Qed.

Lemma location_panics_on_slices_witness :
  location (Sample.funcs MoreSamples.withFieldRecord []) (VSlice (TPtr MessageType) [])
  = Panic UncomparableType.
Proof.
  apply (location_panics_on_slices (Sample.funcs MoreSamples.withFieldRecord [])
           [Sample.locOptions] [] MoreSamples.locMessages [[4; 0]] [] [4]
           (TPtr MessageType) [Sample.options] []).
  - reflexivity.
  - reflexivity.
  - repeat constructor.
  - reflexivity.
  - constructor.
  - reflexivity.
  - repeat constructor.
Defined.

(* ================================================================== *)
(** ** Further properties: resolvePkgPath and comments *)

Lemma firstDependency_answer (pkg : string) (deps : list string) :
  firstDependency pkg deps <> EmptyString ->
  In (firstDependency pkg deps) deps
  /\ stripExt (Base (firstDependency pkg deps)) = pkg.
Proof.
  induction deps as [|p rest IH]; simpl; intros Hr; [now elim Hr|].
  destruct (String.eqb_spec (stripExt (Base p)) pkg) as [Heq|Hne].
  - split; [now left | exact Heq].
  - destruct (IH Hr) as [Hin Hpkg]. split; [now right | exact Hpkg].
Qed.

(** X17.  A path resolvePkgPath returns, when not empty, is the name of
    the file itself or one of its dependencies, and its base name without
    extension is the package asked for; the file itself comes first:
    when its own base name is the package, its name is the answer,
    whatever the dependencies. *)
Theorem resolvePkgPath_answer (f : tmplFuncs) (pkg : string) :
  let fd := protoFileDescriptor f in
  (forall r,
      resolvePkgPath f pkg = Ret r ->
      r <> EmptyString ->
      stripExt (Base r) = pkg
      /\ (fileName fd = Ret r
          \/ exists deps, fileDependencies fd = Ret deps /\ In r deps))
  /\ (forall name,
        fileName fd = Ret name ->
        stripExt (Base name) = pkg ->
        resolvePkgPath f pkg = Ret name).
Proof.
  intros fd. unfold resolvePkgPath, fileName, fileDependencies. fold fd. split.
  - intros r Hcall Hr.
    destruct (selector fd "Name") as [namePtr|]; simpl in *; [|discriminate].
    destruct (derefString namePtr) as [name|]; simpl in *; [|discriminate].
    destruct (String.eqb_spec (stripExt (Base name)) pkg) as [Heq|Hne].
    + inversion Hcall. subst r. split; [exact Heq | now left].
    + destruct (selector fd "Dependency") as [depSlice|]; simpl in *; [|discriminate].
      destruct (elements depSlice) as [depElems|]; simpl in *; [|discriminate].
      destruct (stringsOf depElems) as [deps|]; simpl in *; [|discriminate].
      inversion Hcall. subst r.
      destruct (firstDependency_answer _ _ Hr) as [Hin Hpkg].
      split; [exact Hpkg|]. right. now exists deps.
  - intros name Hname Hpkg.
    destruct (selector fd "Name") as [namePtr|]; simpl in *; [|discriminate].
    rewrite Hname. simpl. apply String.eqb_eq in Hpkg. now rewrite Hpkg.
Qed.

Lemma resolvePkgPath_answer_witness :
  stripExt (Base "lib/v1.2/building.proto") = "building".
Proof.
  apply (proj1 (resolvePkgPath_answer
                  (Sample.funcs MoreSamples.withDependencies []) "building")
           "lib/v1.2/building.proto").
  - reflexivity.
  - discriminate.
Defined.

Section CommentProperties.
Variable scanLines : string -> list string.
Variable TrimSpace : string -> string.

Lemma length_positive (s : string) :
  (0 <? Z.of_nat (String.length s)) = negb (String.eqb s EmptyString).
Proof. destruct s; reflexivity. Qed.

Lemma commentsLoop_segments (lines : list string) :
  forall segments s segments' s',
    commentsLoop TrimSpace lines segments s = (segments', s') ->
    Forall (fun seg => seg <> EmptyString) segments ->
    Forall (fun seg => seg <> EmptyString) segments'.
Proof.
  induction lines as [|text rest IH]; intros segments s segments' s'; simpl.
  - intros H. now inversion H.
  - destruct (0 <? Z.of_nat (String.length s)) eqn:Hs; simpl.
    + destruct (Z.of_nat (String.length (TrimSpace text)) =? 0).
      * intros H Hall. apply (IH _ _ _ _ H).
        apply Forall_app. split; [exact Hall|]. constructor; [|constructor].
        intros ->. discriminate.
      * apply IH.
    + apply IH.
Qed.

(** X18.  comments returns no empty segment, whatever the text: blank
    lines between paragraphs, at the start or at the end add nothing. *)
Theorem comments_no_empty_segment (c : string) :
  Forall (fun seg => seg <> EmptyString) (comments scanLines TrimSpace c).
Proof.
  unfold comments.
  destruct (commentsLoop TrimSpace (scanLines c) [] "") as [segments s] eqn:Hloop.
  pose proof (commentsLoop_segments _ _ _ _ _ Hloop (Forall_nil _)) as Hall.
  destruct (0 <? Z.of_nat (String.length s)) eqn:Hs; [|exact Hall].
  apply Forall_app. split; [exact Hall|]. constructor; [|constructor].
  intros ->. discriminate.
Qed.

Lemma commentsLoop_one_paragraph (lines : list string) :
  Forall (fun text => text <> EmptyString /\ TrimSpace text <> EmptyString) lines ->
  forall segments s,
    s <> EmptyString ->
    commentsLoop TrimSpace lines segments s
    = (segments, fold_left (fun acc text => (acc ++ " " ++ text)%string) lines s).
Proof.
  induction 1 as [|text rest [Htext Htrim] _ IH]; intros segments s Hs; simpl.
  - reflexivity.
  - rewrite !length_positive.
    apply String.eqb_neq in Hs. rewrite Hs. simpl.
    replace (Z.of_nat (String.length (TrimSpace text)) =? 0) with false.
    + rewrite append_assoc. apply IH. now destruct s.
    + symmetry. apply Z.eqb_neq. destruct (TrimSpace text); [now elim Htrim | simpl; lia].
Qed.

(** X19.  A text without blank line is one segment: its lines joined by
    single spaces, the line ends gone. *)
Theorem comments_one_paragraph (c : string) (first : string) (more : list string) :
  scanLines c = first :: more ->
  Forall (fun text => text <> EmptyString /\ TrimSpace text <> EmptyString)
         (first :: more) ->
  comments scanLines TrimSpace c
  = [fold_left (fun acc text => (acc ++ " " ++ text)%string) more first].
Proof.
  intros Hlines Hall. unfold comments. rewrite Hlines.
  inversion Hall as [|? ? [Hfirst _] Hmore]. subst. simpl.
  rewrite (commentsLoop_one_paragraph _ Hmore [] first Hfirst).
  rewrite length_positive.
  assert (Hne : fold_left (fun acc text => (acc ++ " " ++ text)%string) more first
                <> EmptyString).
  { clear - Hfirst. revert first Hfirst.
    induction more as [|t more IH]; intros acc Hacc; simpl; [exact Hacc|].
    apply IH. now destruct acc. }
  apply String.eqb_neq in Hne. now rewrite Hne.
Qed.
End CommentProperties.

Lemma comments_one_paragraph_witness :
  comments (fun _ => ["we like to"; "keep width"; "below 10"]) (fun s => s) "unused"
  = ["we like to keep width below 10"].
Proof.
  apply (comments_one_paragraph (fun _ => ["we like to"; "keep width"; "below 10"])
           (fun s => s) "unused" "we like to" ["keep width"; "below 10"]).
  - reflexivity.
  - repeat constructor; discriminate.
Defined.

(* ================================================================== *)
(** ** Further properties: the paths protoc writes, and scalar keys *)

(** X20.  The walk follows the paths of descriptor.proto.  From a file,
    4 and an index lead to the top-level message at that index; from a
    message, 2 and an index lead to its field at that index, 3 and an
    index to its nested message at that index; the walk then goes on from
    there, and an index out of the bounds gives no node. *)
Theorem walkPath_protoc_paths
        (a : addr) (vals : list value) (elem : gotype) (items : list value)
        (i : Z) (rest : list Z) :
  let at_index :=
    if (0 <=? i) && (i <? Z.of_nat (List.length items))
    then walkPath rest (nth (Z.to_nat i) items VNil)
    else VNil in
  (List.length vals = List.length FileDescriptorProto_decl ->
   nth 5 vals VNil = VSlice elem items ->
   walkPath (4 :: i :: rest) (node "FileDescriptorProto" FileDescriptorProto_decl a vals)
   = at_index)
  /\ (List.length vals = List.length DescriptorProto_decl ->
      nth 1 vals VNil = VSlice elem items ->
      walkPath (2 :: i :: rest) (node "DescriptorProto" DescriptorProto_decl a vals)
      = at_index)
  /\ (List.length vals = List.length DescriptorProto_decl ->
      nth 3 vals VNil = VSlice elem items ->
      walkPath (3 :: i :: rest) (node "DescriptorProto" DescriptorProto_decl a vals)
      = at_index).
Proof.
  intros at_index. subst at_index. rewrite <- walkPath_in_slice with (elem := elem).
  repeat split; intros Hlen Hnth; simpl in Hlen;
    repeat (destruct vals as [|? vals]; [discriminate Hlen|]);
    destruct vals; try discriminate Hlen; clear Hlen;
    simpl in Hnth; subst; rewrite walkPath_step; reflexivity.
Qed.

Lemma walkPath_protoc_paths_witness :
  walkPath [4; 1] Sample.building = Sample.optionsTwin.
Proof.
  apply (proj1 (walkPath_protoc_paths 100%positive
                  (Sample.fileVals 100%positive "world/region/building.proto"
                     "world.building" [Sample.options; Sample.optionsTwin]
                     (Sample.mkSourceCodeInfo 130%positive
                        [Sample.locOptions; Sample.locHeight; Sample.locUnknown;
                         Sample.locOptionsAgain]))
                  (TPtr MessageType) [Sample.options; Sample.optionsTwin] 1 []));
    reflexivity.
Defined.

Lemma iface_eq_basic_scalar (name : string) (s : scalar) (v : value) :
  iface_eq v (VScalar (TBasic name) s) = Ret (same_scalar name s v).
Proof.
  unfold iface_eq, same_dynamic_type.
  destruct v as [|t s'|e l|e p|pk n fs]; simpl; try reflexivity.
  destruct t as [n| | |]; simpl; try reflexivity.
  destruct (String.eqb n name); reflexivity.
Qed.

(** X21.  A scalar of a basic type (a string of a repeated string field,
    a number) is a key by content, not by identity: location's scan
    returns the record of the first cached value of that type with equal
    content, wherever that value came from, and never panics on it. *)
Theorem findCachedItem_scalar_by_content
        (cache : list cacheItem) (name : string) (s : scalar) :
  findCachedItem cache (VScalar (TBasic name) s)
  = Ret (match find (fun i => same_scalar name s (V i)) cache with
         | Some i => L i
         | None => nilLocation
         end).
Proof.
  induction cache as [|i rest IH]; simpl; [reflexivity|].
  rewrite iface_eq_basic_scalar. simpl.
  destruct (same_scalar name s (V i)); [reflexivity | exact IH].
Qed.
